(** * Backtracking puzzle solvers of the arcade repository

    A shallow embedding of the reference solvers
    - [references/peg-solitaire/british/dfs.py],
    - [references/peg-solitaire/british/bfs-memory-british.py],
    - [references/peg-solitaire/european/search-sep.py],
    - [references/sudoku/solver.py],
    - [references/hashiwokakero/hashi.py],
    and the properties of the backtracking pattern they share. *)

From Stdlib Require Import ZArith Lia.
From stdpp Require Import base decidable option list gmap sets strings pretty.

Local Open Scope Z_scope.

(** ** Python values, exceptions and subscripting *)

Module Py.

(** The exceptions the modelled code can raise. *)
Inductive exn : Set :=
| IndexError | KeyError | ValueError | UnboundLocalError | AttributeError.

(** Outcome of an expression or statement: a value, or a raised exception. *)
Inductive res (A : Type) : Type :=
| Ok (a : A)
| Raise (e : exn).
Arguments Ok {A} a.
Arguments Raise {A} e.

Definition rbind {A B} (m : res A) (k : A → res B) : res B :=
  match m with
  | Ok a => k a
  | Raise e => Raise e
  end.

(** [l[i]] for a list of length [n]: an index in [0, n) is used as it is,
    an index in [-n, 0) counts from the end, anything else is an
    [IndexError]. *)
Definition norm_index (n : nat) (i : Z) : option nat :=
  if (0 <=? i) && (i <? Z.of_nat n) then Some (Z.to_nat i)
  else if (i <? 0) && (- Z.of_nat n <=? i) then Some (Z.to_nat (Z.of_nat n + i))
  else None.

Definition getitem {A} (l : list A) (i : Z) : res A :=
  match norm_index (length l) i with
  | Some k => match l !! k with
              | Some x => Ok x
              | None => Raise IndexError
              end
  | None => Raise IndexError
  end.

Definition setitem {A} (l : list A) (i : Z) (x : A) : res (list A) :=
  match norm_index (length l) i with
  | Some k => Ok (<[k:=x]> l)
  | None => Raise IndexError
  end.

(** Splitting a list at its last element, for [l.pop()]. *)
Fixpoint unsnoc {A} (l : list A) : option (list A * A) :=
  match l with
  | [] => None
  | x :: l' =>
      match unsnoc l' with
      | None => Some ([], x)
      | Some (init, y) => Some (x :: init, y)
      end
  end.

(** Truthiness of a value that is [True], [False] or [None]
    ([None] is the result of a function that falls off its end). *)
Definition truthy (v : option bool) : bool :=
  match v with
  | Some b => b
  | None => false
  end.

(** Statements: they run on a state of type [S], and leave a state behind
    also when they raise (what was written before the exception stays
    written). *)
Definition stmt (S A : Type) : Type := S → res A * S.

Definition ret {S A} (a : A) : stmt S A := λ s, (Ok a, s).

Definition bind {S A B} (m : stmt S A) (k : A → stmt S B) : stmt S B :=
  λ s, match m s with
       | (Ok a, s') => k a s'
       | (Raise e, s') => (Raise e, s')
       end.

End Py.
Export Py.

Notation "'let+' x ':=' m 'in' k" := (bind m (λ x, k))
  (at level 10, x name, m at level 100, k at level 200, only parsing).

Notation "'let*' x ':=' m 'in' k" := (rbind m (λ x, k))
  (at level 10, x name, m at level 100, k at level 200, only parsing).

(** ** Peg solitaire: the board and the four methods every solver file repeats

    [board] is the module-level list of rows that every method of
    [PegSolitaire] reads and writes (the methods never go through
    [self.board], except [encode_board]); in each file's [__main__] the
    object is constructed from that very list, so [game.board] is the same
    object.  A cell holds [0] (no cell), a negative number (a hole; the
    code writes [-1]) or a positive peg number. *)

Module Peg.

Definition EMPTY : Z := -1.
Definition VOID : Z := 0.
Definition N : Z := 7.

Abbreviation board := (list (list Z)).

(** A move is the Python list [[row, col, direction, jumped]]. *)
Record move := Move {
  m_row : Z;
  m_col : Z;
  m_dir : string;
  m_jumped : Z
}.

(** The state a [PegSolitaire] method works on: the global [board] and
    [self.moves]. *)
Record pstate := PState {
  st_board : board;
  st_moves : list move
}.

#[global] Instance move_eq_dec : EqDecision move.
Proof. solve_decision. Defined.

(** [board[i][j]] *)
Definition board_get (b : board) (i j : Z) : res Z :=
  let* row := getitem b i in getitem row j.

(** [board[i][j] = v]: the row object [board[i]] is fetched, then updated
    in place. *)
Definition board_set (b : board) (i j v : Z) : res board :=
  match norm_index (length b) i with
  | None => Raise IndexError
  | Some ki =>
      match b !! ki with
      | None => Raise IndexError
      | Some row =>
          match norm_index (length row) j with
          | None => Raise IndexError
          | Some kj => Ok (<[ki := <[kj := v]> row]> b)
          end
      end
  end.

(** Statements on the state of a [PegSolitaire] method. *)
Abbreviation M := (stmt pstate).

Definition rd (i j : Z) : M Z := λ s, (board_get (st_board s) i j, s).

Definition wr (i j v : Z) : M unit :=
  λ s, match board_set (st_board s) i j v with
       | Ok b' => (Ok tt, PState b' (st_moves s))
       | Raise e => (Raise e, s)
       end.

(** [self.moves.append(move)] *)
Definition push_move (m : move) : M unit :=
  λ s, (Ok tt, PState (st_board s) (st_moves s ++ [m])).

(** [move[0] += dr; move[1] += dc] on the list object that was just
    appended to [self.moves]: the update is seen through [self.moves]. *)
Definition shift_last (dr dc : Z) : M unit :=
  λ s, (Ok tt,
        PState (st_board s)
          (match unsnoc (st_moves s) with
           | None => []
           | Some (init, m) =>
               init ++ [Move (m_row m + dr) (m_col m + dc) (m_dir m) (m_jumped m)]
           end)).

(** [move = self.moves.pop()] *)
Definition pop_move : M move :=
  λ s, match unsnoc (st_moves s) with
       | None => (Raise IndexError, s)
       | Some (init, m) => (Ok m, PState (st_board s) init)
       end.


(** One branch of [make_move]; for the case ["w"] ([dr = -1], [dc = 0]):
<<
    board[move[0]-1][move[1]] = -1
    board[move[0]-2][move[1]] = board[move[0]][move[1]]
    board[move[0]][move[1]] = -1
    move[0] -= 2
>>
    and the same with the other three offsets for ["a"], ["s"], ["d"]. *)
Definition jump (dr dc : Z) (m : move) : M unit :=
  let+ _ := wr (m_row m + dr) (m_col m + dc) (-1) in
  let+ v := rd (m_row m) (m_col m) in
  let+ _ := wr (m_row m + 2 * dr) (m_col m + 2 * dc) v in
  let+ _ := wr (m_row m) (m_col m) (-1) in
  shift_last (2 * dr) (2 * dc).

(** [make_move(self, move)]; a [match] none of whose cases applies does
    nothing. *)
Definition make_move (m : move) : M unit :=
  let+ _ := push_move m in
  if String.eqb (m_dir m) "w" then jump (-1) 0 m
  else if String.eqb (m_dir m) "a" then jump 0 (-1) m
  else if String.eqb (m_dir m) "s" then jump 1 0 m
  else if String.eqb (m_dir m) "d" then jump 0 1 m
  else ret tt.

(** One branch of [undo_move]; for the case ["w"] ([dr = -1], [dc = 0]),
    where [move] now holds the landing cell:
<<
    board[move[0]+2][move[1]] = board[move[0]][move[1]]
    board[move[0]][move[1]] = -1
    board[move[0]+1][move[1]] = move[3]
>> *)
Definition unjump (dr dc : Z) (m : move) : M unit :=
  let+ v := rd (m_row m) (m_col m) in
  let+ _ := wr (m_row m - 2 * dr) (m_col m - 2 * dc) v in
  let+ _ := wr (m_row m) (m_col m) (-1) in
  wr (m_row m - dr) (m_col m - dc) (m_jumped m).

(** [undo_move(self)] *)
Definition undo_move : M unit :=
  let+ m := pop_move in
  if String.eqb (m_dir m) "w" then unjump (-1) 0 m
  else if String.eqb (m_dir m) "a" then unjump 0 (-1) m
  else if String.eqb (m_dir m) "s" then unjump 1 0 m
  else if String.eqb (m_dir m) "d" then unjump 0 1 m
  else ret tt.

(** The test [g and board[hi][hj] < 0 and board[pi][pj] > 0], evaluated
    from left to right: a subscript is evaluated only when everything to
    its left held. *)
Definition can_jump (b : board) (g : bool) (hi hj pi pj : Z) : res bool :=
  if g then
    let* h := board_get b hi hj in
    if h <? 0 then
      let* p := board_get b pi pj in Ok (0 <? p)
    else Ok false
  else Ok false.

(** The four tests of [get_valid_moves] for the peg at [(i, col)], and the
    move each one appends. *)
Definition up_ok (b : board) (i col : Z) : res bool :=
  can_jump b (1 <? i) (i - 2) col (i - 1) col.
Definition left_ok (b : board) (i col : Z) : res bool :=
  can_jump b (1 <? col) i (col - 2) i (col - 1).
Definition down_ok (b : board) (i col : Z) : res bool :=
  can_jump b (i <? N - 2) (i + 2) col (i + 1) col.
Definition right_ok (b : board) (i col : Z) : res bool :=
  can_jump b (col <? N - 2) i (col + 2) i (col + 1).

Definition up_move (b : board) (i col : Z) : res (list move) :=
  let* v := board_get b (i - 1) col in Ok [Move i col "w" v].
Definition left_move (b : board) (i col : Z) : res (list move) :=
  let* v := board_get b i (col - 1) in Ok [Move i col "a" v].
Definition down_move (b : board) (i col : Z) : res (list move) :=
  let* v := board_get b (i + 1) col in Ok [Move i col "s" v].
Definition right_move (b : board) (i col : Z) : res (list move) :=
  let* v := board_get b i (col + 1) in Ok [Move i col "d" v].

(** The two nested loops of [get_valid_moves],
<<
    for i, row in enumerate(board):
        for col in range(len(row)):
            if (board[i][col] > 0): ...
>>
    over the function [peg] that holds the body of the [if]. *)
Section Scan.
Variable peg : board → Z → Z → res (list move).

Fixpoint scan_cols (b : board) (i col : nat) (row : list Z)
    (valids : list move) : res (list move) :=
  match row with
  | [] => Ok valids
  | v :: rest =>
      if 0 <? v then
        let* new := peg b (Z.of_nat i) (Z.of_nat col) in
        scan_cols b i (S col) rest (valids ++ new)
      else scan_cols b i (S col) rest valids
  end.

Fixpoint scan_rows (b : board) (i : nat) (rows : board)
    (valids : list move) : res (list move) :=
  match rows with
  | [] => Ok valids
  | row :: rest =>
      let* valids' := scan_cols b i 0 row valids in
      scan_rows b (S i) rest valids'
  end.
End Scan.

(** The loops of [is_solved] up to its last statement: the inner loop
    counts the pegs of a row and records where they are, and
    [if (pegs > 1): return False] runs after each row. *)
Fixpoint count_row (i col : nat) (row : list Z)
    (position : list (Z * Z)) (pegs : Z) : list (Z * Z) * Z :=
  match row with
  | [] => (position, pegs)
  | v :: rest =>
      if 0 <? v then
        count_row i (S col) rest
          (position ++ [(Z.of_nat i, Z.of_nat col)]) (pegs + 1)
      else count_row i (S col) rest position pegs
  end.

Section Solved.
(** what [is_solved] does after the loop *)
Variable final : list (Z * Z) → Z → option bool.

Fixpoint count_rows (i : nat) (rows : board)
    (position : list (Z * Z)) (pegs : Z) : option bool :=
  match rows with
  | [] => final position pegs
  | row :: rest =>
      let '(position', pegs') := count_row i 0 row position pegs in
      if 1 <? pegs' then Some false
      else count_rows (S i) rest position' pegs'
  end.
End Solved.

(** The depth-first loop
<<
    for move in self.get_valid_moves():
        self.make_move(move)
        if <recursive call>: return True
        self.undo_move()
    return False
>>
    over the recursive call [rec]; [None] is a call that did not return
    within the recursion depth it was given. *)
Fixpoint try_moves (rec : pstate → option (res bool * pstate))
    (valids : list move) (s : pstate) : option (res bool * pstate) :=
  match valids with
  | [] => Some (Ok false, s)
  | m :: rest =>
      match make_move m s with
      | (Raise e, s1) => Some (Raise e, s1)
      | (Ok _, s1) =>
          match rec s1 with
          | None => None
          | Some (Raise e, s2) => Some (Raise e, s2)
          | Some (Ok true, s2) => Some (Ok true, s2)
          | Some (Ok false, s2) =>
              match undo_move s2 with
              | (Raise e, s3) => Some (Raise e, s3)
              | (Ok _, s3) => try_moves rec rest s3
              end
          end
      end
  end.

End Peg.

(** ** The cells of a board *)

Module Board.
Import Peg.

(** The cell in row [i], column [j], when there is one. *)
Definition cell (b : board) (i j : nat) : option Z :=
  b !! i ≫= (.!! j).

(** The same at integer coordinates; there is no cell at a negative
    coordinate. *)
Definition at_ (b : board) (i j : Z) : option Z :=
  if (0 <=? i) && (0 <=? j) then cell b (Z.to_nat i) (Z.to_nat j) else None.

(** The board with the cell at [(i, j)] replaced, if there is one. *)
Definition put (b : board) (i j v : Z) : board :=
  alter (<[Z.to_nat j := v]>) (Z.to_nat i) b.

Definition shape (b : board) : list nat := length <$> b.

(** What a cell adds to the number of pegs. *)
Definition peg_at (v : Z) : nat := if 0 <? v then 1%nat else 0%nat.

(** Number of pegs (positive cells). *)
Definition pegs_row (row : list Z) : nat :=
  length (filter (λ v, 0 < v) row).
Definition pegs (b : board) : nat := sum_list (pegs_row <$> b).

(** Two boards of the same shape whose cells are related by [r]. *)
Definition related (r : Z → Z → Prop) (b b' : board) : Prop :=
  Forall2 (Forall2 r) b b'.

(** What a failed search may do to a cell: nothing, or put [-1] into a
    hole. *)
Definition refill (v v' : Z) : Prop := v' = v ∨ (v < 0 ∧ v' = -1).

(** Every hole holds the marker [EMPTY]. *)
Definition holes_empty (b : board) : Prop :=
  Forall (Forall (λ v, v < 0 → v = EMPTY)) b.

End Board.

(** ** Legal jumps *)

Module Jump.
Import Peg Board.

(** The offset of the jumped cell for each direction tag. *)
Definition offset (d : string) : option (Z * Z) :=
  if String.eqb d "w" then Some (-1, 0)
  else if String.eqb d "a" then Some (0, -1)
  else if String.eqb d "s" then Some (1, 0)
  else if String.eqb d "d" then Some (0, 1)
  else None.

(** The rule of the game: [m] takes the peg [o] at [(m_row, m_col)] over
    the peg [m_jumped] next to it in direction [(dr, dc)] into the hole
    [h] behind. *)
Record jumpable (b : board) (m : move) (dr dc o h : Z) : Prop := {
  j_dir : offset (m_dir m) = Some (dr, dc);
  j_peg : at_ b (m_row m) (m_col m) = Some o;
  j_peg_pos : 0 < o;
  j_over : at_ b (m_row m + dr) (m_col m + dc) = Some (m_jumped m);
  j_over_pos : 0 < m_jumped m;
  j_hole : at_ b (m_row m + 2 * dr) (m_col m + 2 * dc) = Some h;
  j_hole_neg : h < 0
}.

Definition legal (b : board) (m : move) : Prop :=
  ∃ dr dc o h, jumpable b m dr dc o h.

(** The board after the jump, and the move as [make_move] leaves it. *)
Definition after_jump (b : board) (m : move) (dr dc o : Z) : board :=
  put (put (put b (m_row m + dr) (m_col m + dc) (-1))
         (m_row m + 2 * dr) (m_col m + 2 * dc) o)
    (m_row m) (m_col m) (-1).

Definition landed (m : move) (dr dc : Z) : move :=
  Move (m_row m + 2 * dr) (m_col m + 2 * dc) (m_dir m) (m_jumped m).

(** The board after the jump is taken back. *)
Definition after_undo (b : board) (m : move) (dr dc o : Z) : board :=
  put (put (put b (m_row m) (m_col m) o)
         (m_row m + 2 * dr) (m_col m + 2 * dc) (-1))
    (m_row m + dr) (m_col m + dc) (m_jumped m).

End Jump.

(** ** [british/dfs.py]: exhaustive depth-first search *)

Module British.
Import Peg.

(** [is_solved(self)]: [True], [False], or [None] when the function ends
    without a [return]. *)
Definition is_solved (b : board) : option bool :=
  count_rows
    (λ position pegs,
       if (pegs =? 1) && bool_decide (position = [(3, 3)]) then Some true
       else None)
    0 b [] 0.

(** The body of [if (board[i][col] > 0):], an [if]/[elif] chain: the
    first direction whose test holds is the only one appended. *)
Definition peg_moves (b : board) (i col : Z) : res (list move) :=
  let* w := up_ok b i col in
  if w then up_move b i col else
  let* a := left_ok b i col in
  if a then left_move b i col else
  let* s := down_ok b i col in
  if s then down_move b i col else
  let* d := right_ok b i col in
  if d then right_move b i col else Ok [].

(** [get_valid_moves(self)] *)
Definition get_valid_moves (b : board) : res (list move) :=
  scan_rows peg_moves b 0 b [].

(** [solve(self)], with the recursion depth bounded by [fuel]. *)
Fixpoint solve (fuel : nat) (s : pstate) : option (res bool * pstate) :=
  match fuel with
  | O => None
  | S fuel' =>
      if truthy (is_solved (st_board s)) then Some (Ok true, s)
      else
        match get_valid_moves (st_board s) with
        | Raise e => Some (Raise e, s)
        | Ok valids => try_moves (solve fuel') valids s
        end
  end.

(** The board of [__main__]. *)
Definition main_board : board :=
  [ [ 0;  0;  1;  2;  3;  0;  0];
    [ 0;  0;  4;  5;  6;  0;  0];
    [ 7;  8;  9; 10; 11; 12; 13];
    [14; 15; 16; -1; 17; 18; 19];
    [20; 21; 22; 23; 24; 25; 26];
    [ 0;  0; 27; 28; 29;  0;  0];
    [ 0;  0; 30; 31; 32;  0;  0] ].

End British.

(** ** [british/bfs-memory-british.py]: depth-first search with a visited set

    [is_solved], [get_valid_moves], [make_move] and [undo_move] are, line
    for line, those of [british/dfs.py]. *)

Module BritishMemo.
Import Peg.

Definition is_solved : board → option bool := British.is_solved.
Definition get_valid_moves : board → res (list move) := British.get_valid_moves.

(** The characters of
    ["".join("1" if cell > 0 else "0" for row in self.board for cell in row)],
    [true] for ["1"]. *)
Definition bits (b : board) : list bool :=
  (λ cell, 0 <? cell) <$> concat b.

(** [int(s, 2)] on a string of binary digits; the empty string is not a
    number. *)
Definition int2 (digits : list bool) : res Z :=
  match digits with
  | [] => Raise ValueError
  | _ => Ok (fold_left (λ acc (d : bool), 2 * acc + (if d then 1 else 0)) digits 0)
  end.

(** [encode_board(self)] *)
Definition encode_board (b : board) : res Z := int2 (bits b).

(** The loop of [dfs]; the set [visited] is one object, shared by all the
    calls. *)
Fixpoint try_moves_visited
    (rec : pstate → gset Z → option (res bool * pstate * gset Z))
    (valids : list move) (s : pstate) (visited : gset Z) :
    option (res bool * pstate * gset Z) :=
  match valids with
  | [] => Some (Ok false, s, visited)
  | m :: rest =>
      match make_move m s with
      | (Raise e, s1) => Some (Raise e, s1, visited)
      | (Ok _, s1) =>
          match rec s1 visited with
          | None => None
          | Some (Raise e, s2, visited2) => Some (Raise e, s2, visited2)
          | Some (Ok true, s2, visited2) => Some (Ok true, s2, visited2)
          | Some (Ok false, s2, visited2) =>
              match undo_move s2 with
              | (Raise e, s3) => Some (Raise e, s3, visited2)
              | (Ok _, s3) => try_moves_visited rec rest s3 visited2
              end
          end
      end
  end.

(** [dfs(self, visited)] for a set [visited], with the recursion depth
    bounded by [fuel]. *)
Fixpoint dfs (fuel : nat) (s : pstate) (visited : gset Z) :
    option (res bool * pstate * gset Z) :=
  match fuel with
  | O => None
  | S fuel' =>
      match encode_board (st_board s) with
      | Raise e => Some (Raise e, s, visited)
      | Ok board_state =>
          if bool_decide (board_state ∈ visited) then Some (Ok false, s, visited)
          else
            let visited := {[board_state]} ∪ visited in
            if truthy (is_solved (st_board s)) then Some (Ok true, s, visited)
            else
              match get_valid_moves (st_board s) with
              | Raise e => Some (Raise e, s, visited)
              | Ok valids => try_moves_visited (dfs fuel') valids s visited
              end
      end
  end.

(** [game.dfs()]: [visited is None], so the search starts from a new set. *)
Definition dfs_main (fuel : nat) (s : pstate) : option (res bool * pstate * gset Z) :=
  dfs fuel s ∅.

End BritishMemo.

(** ** [european/search-sep.py]: breadth-first search *)

Module European.
Import Peg.

(** [is_solved(self)]: any last peg will do. *)
Definition is_solved (b : board) : option bool :=
  count_rows
    (λ position pegs, if pegs =? 1 then Some true else None)
    0 b [] 0.

(** The body of [if (board[i][col] > 0):], four separate [if]s. *)
Definition peg_moves (b : board) (i col : Z) : res (list move) :=
  let* w := up_ok b i col in
  let* mw := (if w then up_move b i col else Ok []) in
  let* a := left_ok b i col in
  let* ma := (if a then left_move b i col else Ok []) in
  let* s := down_ok b i col in
  let* ms := (if s then down_move b i col else Ok []) in
  let* d := right_ok b i col in
  let* md := (if d then right_move b i col else Ok []) in
  Ok (mw ++ ma ++ ms ++ md).

(** [get_valid_moves(self)] *)
Definition get_valid_moves (b : board) : res (list move) :=
  scan_rows peg_moves b 0 b [].

(** A [PegSolitaire] object: its own [board] and [moves], [lvl], [idx].
    Its methods work on the global [board] all the same. *)
Record game := Game {
  g_board : board;
  g_moves : list move;
  g_lvl : Z;
  g_idx : Z
}.

(** [str(board)] for a list of lists of ints. *)
Definition str_list {A} (f : A → string) (l : list A) : string :=
  "[" +:+ String.concat ", " (f <$> l) +:+ "]".
Definition str_board (b : board) : string := str_list (str_list pretty) b.

(** What [bfs] works on: the global [board] (which [root.board] is),
    [queue], [visited] and the counter [idx]. *)
Record bfs_state := BfsState {
  bs_board : board;
  bs_queue : list game;
  bs_visited : gset string;
  bs_idx : Z
}.

(** The loop [for move in curr_board.get_valid_moves():] of [bfs].  In
    its body [curr_board.get_valid_moves()] is called once more for the
    message it prints; [neighbour_board.make_move(move)] appends to the
    copy's [moves] and writes to the global [board]. *)
Fixpoint expand (curr : game) (lvl : Z) (valids : list move) (st : bfs_state) :
    res unit * bfs_state :=
  match valids with
  | [] => (Ok tt, st)
  | move :: rest =>
      match get_valid_moves (bs_board st) with
      | Raise e => (Raise e, st)
      | Ok _ =>
          let neighbour_board := Game (g_board curr) (g_moves curr) lvl (bs_idx st) in
          let idx := bs_idx st + 1 in
          match make_move move (PState (bs_board st) (g_moves neighbour_board)) with
          | (Raise e, s1) =>
              (Raise e, BfsState (st_board s1) (bs_queue st) (bs_visited st) idx)
          | (Ok _, s1) =>
              let neighbour_board :=
                Game (g_board neighbour_board) (st_moves s1) lvl (bs_idx st) in
              let board_str := str_board (g_board neighbour_board) in
              if bool_decide (board_str ∈ bs_visited st) then
                expand curr lvl rest
                  (BfsState (st_board s1) (bs_queue st) (bs_visited st) idx)
              else
                expand curr lvl rest
                  (BfsState (st_board s1) (bs_queue st ++ [neighbour_board])
                     ({[board_str]} ∪ bs_visited st) idx)
          end
      end
  end.

(** The loop [while queue:] of [bfs], run at most [fuel] times; the result
    is the returned list of moves, or [None] for [return None]. *)
Fixpoint bfs_loop (fuel : nat) (lvl : Z) (st : bfs_state) :
    option (res (option (list move)) * bfs_state) :=
  match fuel with
  | O => None
  | S fuel' =>
      match bs_queue st with
      | [] => Some (Ok None, st)
      | curr_board :: queue =>
          let lvl := lvl + 1 in
          let st := BfsState (bs_board st) queue (bs_visited st) (bs_idx st) in
          if truthy (is_solved (bs_board st)) then
            Some (Ok (Some (g_moves curr_board)), st)
          else
            match get_valid_moves (bs_board st) with
            | Raise e => Some (Raise e, st)
            | Ok valids =>
                match expand curr_board lvl valids st with
                | (Raise e, st') => Some (Raise e, st')
                | (Ok _, st') => bfs_loop fuel' lvl st'
                end
            end
      end
  end.

(** [bfs(root)] for a [root] whose [board] is the global [board], as in
    [__main__]; [root_moves] is [root.moves]. *)
Definition bfs (fuel : nat) (board : board) (root_moves : list move) :
    option (res (option (list move)) * bfs_state) :=
  bfs_loop fuel 0
    (BfsState board [Game board root_moves 0 0] {[str_board board]} 0).

(** The board of [__main__]. *)
Definition main_board : board :=
  [ [ 0;  0;  1;  2;  3;  0;  0];
    [ 0;  4;  5;  6;  7;  8;  0];
    [ 9; 10; 11; 12; 13; 14; 15];
    [16; 17; 18; 36; 19; 20; 21];
    [22; 23; 24; 25; 26; 27; 28];
    [ 0; 29; 30; 31; 32; 33;  0];
    [ 0;  0; 34; 35; -1;  0;  0] ].

End European.

(** ** Move sequences and the positions used in the scenarios *)

Module Positions.
Import Peg Board Jump.

(** [plays b ms b']: the moves [ms], each one legal where it is made, lead
    from [b] to [b']. *)
Inductive plays : board → list move → board → Prop :=
| plays_nil b : plays b [] b
| plays_cons b m dr dc o h ms b' :
    jumpable b m dr dc o h →
    plays (after_jump b m dr dc o) ms b' →
    plays b (m :: ms) b'.

(** A British board on which the peg at [(3, 3)] can jump up and can jump
    left. *)
Definition two_ways : board :=
  [ [ 0;  0;  1;  2;  3;  0;  0];
    [ 0;  0;  4; -1;  6;  0;  0];
    [ 7;  8;  9; 10; 11; 12; 13];
    [14; -1; 16;  5; 17; 18; 19];
    [20; 21; 22; 23; 24; 25; 26];
    [ 0;  0; 27; 28; 29;  0;  0];
    [ 0;  0; 30; 31; 32;  0;  0] ].

(** A European board with two pegs left, one jump away from the end. *)
Definition two_pegs : board :=
  [ [ 0;  0; -1; -1; -1;  0;  0];
    [ 0; -1; -1; -1; -1; -1;  0];
    [-1; -1; -1; -1; -1; -1; -1];
    [-1; -1;  5;  7; -1; -1; -1];
    [-1; -1; -1; -1; -1; -1; -1];
    [ 0; -1; -1; -1; -1; -1;  0];
    [ 0;  0; -1; -1; -1;  0;  0] ].

End Positions.

(** ** [sudoku/solver.py]: depth-first search with incremental constraints *)

Module Sudoku.

Abbreviation grid := (list (list string)).

(** The variables of [solveSudoku] that its inner functions share:
    [board], [empties], and the lists of sets [rows], [cols], [boxes]. *)
Record sstate := SState {
  s_board : grid;
  s_empties : list (nat * nat);
  s_rows : list (gset string);
  s_cols : list (gset string);
  s_boxes : list (gset string)
}.

(** The three lists of sets, and the index a cell has in each of them. *)
Inductive group : Set := Rows | Cols | Boxes.

#[global] Instance group_eq_dec : EqDecision group.
Proof. solve_decision. Defined.

Definition box (r c : nat) : nat := (r / 3) * 3 + c / 3.

Definition key (g : group) (r c : nat) : nat :=
  match g with
  | Rows => r
  | Cols => c
  | Boxes => box r c
  end.

Definition sets_of (g : group) (s : sstate) : list (gset string) :=
  match g with
  | Rows => s_rows s
  | Cols => s_cols s
  | Boxes => s_boxes s
  end.

Definition with_sets (g : group) (sets : list (gset string)) (s : sstate) : sstate :=
  match g with
  | Rows => SState (s_board s) (s_empties s) sets (s_cols s) (s_boxes s)
  | Cols => SState (s_board s) (s_empties s) (s_rows s) sets (s_boxes s)
  | Boxes => SState (s_board s) (s_empties s) (s_rows s) (s_cols s) sets
  end.

(** The state when [find_empties()] is called: [N = len(board)] empty sets
    in each list. *)
Definition start (board : grid) : sstate :=
  let N := length board in
  SState board [] (replicate N ∅) (replicate N ∅) (replicate N ∅).

(** [rows[k].add(v)], and the same for [cols] and [boxes]. *)
Definition set_add (g : group) (k : nat) (v : string) : stmt sstate unit :=
  λ s, match sets_of g s !! k with
       | Some X => (Ok tt, with_sets g (<[k := {[v]} ∪ X]> (sets_of g s)) s)
       | None => (Raise IndexError, s)
       end.

(** [rows[k].remove(v)]: a [KeyError] when [v] is not in the set. *)
Definition set_remove (g : group) (k : nat) (v : string) : stmt sstate unit :=
  λ s, match sets_of g s !! k with
       | Some X =>
           if bool_decide (v ∈ X)
           then (Ok tt, with_sets g (<[k := X ∖ {[v]}]> (sets_of g s)) s)
           else (Raise KeyError, s)
       | None => (Raise IndexError, s)
       end.

(** [board[r][c]] *)
Definition board_get (r c : nat) : stmt sstate string :=
  λ s, match s_board s !! r with
       | Some row => match row !! c with
                     | Some v => (Ok v, s)
                     | None => (Raise IndexError, s)
                     end
       | None => (Raise IndexError, s)
       end.

(** [board[r][c] = v] *)
Definition board_set (r c : nat) (v : string) : stmt sstate unit :=
  λ s, match s_board s !! r with
       | Some row =>
           match row !! c with
           | Some _ =>
               (Ok tt, SState (<[r := <[c := v]> row]> (s_board s)) (s_empties s)
                         (s_rows s) (s_cols s) (s_boxes s))
           | None => (Raise IndexError, s)
           end
       | None => (Raise IndexError, s)
       end.

(** [empties.append((i, j))] *)
Definition empties_append (i j : nat) : stmt sstate unit :=
  λ s, (Ok tt, SState (s_board s) (s_empties s ++ [(i, j)])
                 (s_rows s) (s_cols s) (s_boxes s)).

(** The body of the loops of [find_empties] for the cell [(i, j)] holding
    [val]. *)
Definition visit (i j : nat) (val : string) : stmt sstate unit :=
  if String.eqb val "." then empties_append i j
  else
    let+ _ := set_add Rows i val in
    let+ _ := set_add Cols j val in
    set_add Boxes (box i j) val.

Fixpoint visit_row (i j : nat) (row : list string) : stmt sstate unit :=
  match row with
  | [] => ret tt
  | val :: rest => let+ _ := visit i j val in visit_row i (S j) rest
  end.

Fixpoint visit_rows (i : nat) (rows : grid) : stmt sstate unit :=
  match rows with
  | [] => ret tt
  | row :: rest => let+ _ := visit_row i 0 row in visit_rows (S i) rest
  end.

(** [find_empties()] *)
Definition find_empties : stmt sstate unit :=
  λ s, visit_rows 0 (s_board s) s.

(** [for d in "123456789"] *)
Definition digits : list string :=
  ["1"; "2"; "3"; "4"; "5"; "6"; "7"; "8"; "9"].

Definition get_set (g : group) (k : nat) (s : sstate) : res (gset string) :=
  match sets_of g s !! k with
  | Some X => Ok X
  | None => Raise IndexError
  end.

(** [d not in rows[r] and d not in cols[c] and d not in boxes[b]], from
    left to right. *)
Definition allowed (r c b : nat) (d : string) (s : sstate) : res bool :=
  let* R := get_set Rows r s in
  if bool_decide (d ∈ R) then Ok false
  else
    let* C := get_set Cols c s in
    if bool_decide (d ∈ C) then Ok false
    else
      let* B := get_set Boxes b s in
      Ok (bool_decide (d ∉ B)).

Fixpoint validMove_loop (r c b : nat) (ds : list string)
    (valid_moves : list string) (s : sstate) : res (list string) :=
  match ds with
  | [] => Ok valid_moves
  | d :: rest =>
      let* ok := allowed r c b d s in
      validMove_loop r c b rest
        (if ok then valid_moves ++ [d] else valid_moves) s
  end.

(** [validMove(board_state, pos)]; it does not look at [board_state]. *)
Definition validMove (s : sstate) (pos : nat * nat) : res (list string) :=
  let '(r, c) := pos in
  validMove_loop r c (box r c) digits [] s.

(** The statements under [# place] in [dfs_rec]. *)
Definition place (r c b : nat) (move : string) : stmt sstate unit :=
  let+ _ := board_set r c move in
  let+ _ := set_add Rows r move in
  let+ _ := set_add Cols c move in
  set_add Boxes b move.

(** The statements under [# undo] in [dfs_rec]. *)
Definition undo (r c b : nat) (move : string) : stmt sstate unit :=
  let+ _ := board_set r c "." in
  let+ _ := set_remove Rows r move in
  let+ _ := set_remove Cols c move in
  set_remove Boxes b move.

(** What a call returns here: its result, the state it leaves, and the
    log of the states it went through, one after each [# place] and one
    after each [# undo] (the log is not in the program; it is what the
    invariant of the sets is stated on). *)
Abbreviation outcome := (option (res bool * sstate * list sstate)).

(** The loop [for move in validMove(board, (r, c)):] of [dfs_rec], over
    the recursive call [rec]. *)
Fixpoint try_digits (rec : sstate → outcome) (r c b : nat)
    (moves : list string) (s : sstate) : outcome :=
  match moves with
  | [] => Some (Ok false, s, [])
  | move :: rest =>
      match place r c b move s with
      | (Raise e, s1) => Some (Raise e, s1, [])
      | (Ok _, s1) =>
          match rec s1 with
          | None => None
          | Some (Raise e, s2, log) => Some (Raise e, s2, s1 :: log)
          | Some (Ok true, s2, log) => Some (Ok true, s2, s1 :: log)
          | Some (Ok false, s2, log) =>
              match undo r c b move s2 with
              | (Raise e, s3) => Some (Raise e, s3, s1 :: log)
              | (Ok _, s3) =>
                  match try_digits rec r c b rest s3 with
                  | None => None
                  | Some (res, s4, log') =>
                      Some (res, s4, s1 :: log ++ s3 :: log')
                  end
              end
          end
      end
  end.

(** [dfs_rec(idx)] with its log, the recursion depth bounded by [fuel]. *)
Fixpoint dfs_rec_log (fuel : nat) (idx : nat) (s : sstate) : outcome :=
  match fuel with
  | O => None
  | S fuel' =>
      if decide (idx = length (s_empties s)) then Some (Ok true, s, [])
      else
        match s_empties s !! idx with
        | None => Some (Raise IndexError, s, [])
        | Some (r, c) =>
            match board_get r c s with
            | (Raise e, _) => Some (Raise e, s, [])
            | (Ok v, _) =>
                if negb (String.eqb v ".") then dfs_rec_log fuel' (S idx) s
                else
                  let b := box r c in
                  match validMove s (r, c) with
                  | Raise e => Some (Raise e, s, [])
                  | Ok moves =>
                      try_digits (dfs_rec_log fuel' (S idx)) r c b moves s
                  end
            end
        end
  end.

(** [dfs_rec(idx)]: its result and the state it leaves. *)
Definition dfs_rec (fuel : nat) (idx : nat) (s : sstate) :
    option (res bool * sstate) :=
  fst <$> dfs_rec_log fuel idx s.

(** [solveSudoku(board)]: [find_empties()], then [dfs_rec(0)]; a depth of
    one more than the number of empty cells is all [dfs_rec] can use. *)
Definition solveSudoku (board : grid) : option (res bool * sstate) :=
  match find_empties (start board) with
  | (Raise e, s) => Some (Raise e, s)
  | (Ok _, s) => dfs_rec (S (length (s_empties s))) 0 s
  end.

(** The cells of a grid with their coordinates, row by row. *)
Fixpoint row_entries (i j : nat) (row : list string) : list (nat * nat * string) :=
  match row with
  | [] => []
  | v :: rest => (i, j, v) :: row_entries i (S j) rest
  end.

Fixpoint grid_entries (i : nat) (rows : grid) : list (nat * nat * string) :=
  match rows with
  | [] => []
  | row :: rest => row_entries i 0 row ++ grid_entries (S i) rest
  end.

Definition entries (b : grid) : list (nat * nat * string) := grid_entries 0 b.

(** The values, other than ["."], that the cells of row [k] hold (for
    [Rows]; of column [k] for [Cols], of box [k] for [Boxes]). *)
Definition filled_in (g : group) (k : nat) (e : nat * nat * string) : Prop :=
  key g e.1.1 e.1.2 = k ∧ e.2 ≠ ".".

#[global] Instance filled_in_dec g k e : Decision (filled_in g k e).
Proof. unfold filled_in. apply _. Defined.

Definition collected (g : group) (es : list (nat * nat * string)) (k : nat) :
    gset string :=
  list_to_set (snd <$> filter (filled_in g k) es).

Definition values (g : group) (b : grid) (k : nat) : gset string :=
  collected g (entries b) k.

(** The correspondence between the sets and the board: each set that is
    there holds the values of its row, column or box. *)
Definition tracks (s : sstate) : Prop :=
  ∀ g k X, sets_of g s !! k = Some X → X = values g (s_board s) k.

(** A statement that leaves [empties] alone. *)
Definition keeps_empties {A} (m : stmt sstate A) : Prop :=
  ∀ s r s', m s = (r, s') → s_empties s' = s_empties s.

(** A 9 by 9 grid. *)
Definition nine_by_nine (b : grid) : Prop :=
  length b = 9%nat ∧ Forall (λ row, length row = 9%nat) b.

(** The board of the example in the statement of the puzzle, solved but
    for its last cell. *)
Definition almost_solved : grid :=
  [ ["5"; "3"; "4"; "6"; "7"; "8"; "9"; "1"; "2"];
    ["6"; "7"; "2"; "1"; "9"; "5"; "3"; "4"; "8"];
    ["1"; "9"; "8"; "3"; "4"; "2"; "5"; "6"; "7"];
    ["8"; "5"; "9"; "7"; "6"; "1"; "4"; "2"; "3"];
    ["4"; "2"; "6"; "8"; "5"; "3"; "7"; "9"; "1"];
    ["7"; "1"; "3"; "9"; "2"; "4"; "8"; "5"; "6"];
    ["9"; "6"; "1"; "5"; "3"; "7"; "2"; "8"; "4"];
    ["2"; "8"; "7"; "4"; "1"; "9"; "6"; "3"; "5"];
    ["3"; "4"; "5"; "2"; "8"; "6"; "1"; "7"; "."] ].

End Sudoku.

(** * Properties *)

(** ** Facts about subscripting *)

Section Subscript.
Context {A : Type}.
Implicit Types (l : list A) (x : A).

Lemma norm_index_nat (n k : nat) :
  (k < n)%nat → norm_index n (Z.of_nat k) = Some k.
Proof.
  intros Hk. unfold norm_index.
  destruct (Z.leb_spec 0 (Z.of_nat k)); [|lia].
  destruct (Z.ltb_spec (Z.of_nat k) (Z.of_nat n)); [|lia].
  simpl. by rewrite Nat2Z.id.
Qed.

Lemma norm_index_nonneg (n : nat) (i : Z) (k : nat) :
  0 ≤ i → norm_index n i = Some k → k = Z.to_nat i ∧ (k < n)%nat.
Proof.
  intros Hi. unfold norm_index.
  destruct (Z.leb_spec 0 i); [|lia].
  destruct (Z.ltb_spec i (Z.of_nat n)); simpl.
  - intros [= <-]. lia.
  - destruct (Z.ltb_spec i 0); [lia|]. done.
Qed.

Lemma norm_index_lt (n : nat) (i : Z) (k : nat) :
  norm_index n i = Some k → (k < n)%nat.
Proof.
  unfold norm_index.
  repeat case_match; intros [= <-]; lia.
Qed.

Lemma getitem_nat l (k : nat) x :
  l !! k = Some x → getitem l (Z.of_nat k) = Ok x.
Proof.
  intros H. unfold getitem.
  rewrite norm_index_nat by (by eapply lookup_lt_Some). by rewrite H.
Qed.

Lemma getitem_nonneg l (i : Z) x :
  0 ≤ i → getitem l i = Ok x → l !! Z.to_nat i = Some x.
Proof.
  intros Hi. unfold getitem.
  destruct (norm_index (length l) i) as [k|] eqn:Hk; [|done].
  apply norm_index_nonneg in Hk as [-> _]; [|done].
  by destruct (l !! Z.to_nat i); [intros [= ->]|].
Qed.

Lemma getitem_raise l (i : Z) (e : exn) :
  getitem l i = Raise e → e = IndexError.
Proof.
  unfold getitem. destruct (norm_index _ _); [destruct (l !! _)|]; congruence.
Qed.

Lemma unsnoc_snoc l x : unsnoc (l ++ [x]) = Some (l, x).
Proof. induction l as [|y l IH]; simpl; [done|]. by rewrite IH. Qed.

Lemma unsnoc_None l : unsnoc l = None → l = [].
Proof.
  destruct l as [|y l]; simpl; [done|].
  by destruct (unsnoc l) as [[? ?]|].
Qed.
End Subscript.

(** ** Facts about the cells of a board *)

Module BoardFacts.
Import Peg Board.

Lemma at_nat b (i j : nat) : at_ b (Z.of_nat i) (Z.of_nat j) = cell b i j.
Proof.
  unfold at_. destruct (Z.leb_spec 0 (Z.of_nat i)); [|lia].
  destruct (Z.leb_spec 0 (Z.of_nat j)); [|lia]. simpl. by rewrite !Nat2Z.id.
Qed.

Lemma at_Some b i j v :
  at_ b i j = Some v →
  0 ≤ i ∧ 0 ≤ j ∧ cell b (Z.to_nat i) (Z.to_nat j) = Some v.
Proof.
  unfold at_. destruct (Z.leb_spec 0 i), (Z.leb_spec 0 j); simpl; try done.
Qed.

Lemma cell_Some b i j v :
  cell b i j = Some v ↔ ∃ row, b !! i = Some row ∧ row !! j = Some v.
Proof.
  unfold cell. destruct (b !! i) as [row|]; simpl.
  - split; [eauto|]. by intros (? & [= <-] & ?).
  - split; [done|]. by intros (? & ? & ?).
Qed.

Lemma board_get_at b i j v : at_ b i j = Some v → board_get b i j = Ok v.
Proof.
  intros (Hi & Hj & (row & Hrow & Hv)%cell_Some)%at_Some.
  unfold board_get.
  rewrite <-(Z2Nat.id i), <-(Z2Nat.id j) by done.
  rewrite (getitem_nat _ _ _ Hrow). simpl. by apply getitem_nat.
Qed.

Lemma board_get_nonneg b i j v :
  0 ≤ i → 0 ≤ j → board_get b i j = Ok v → at_ b i j = Some v.
Proof.
  intros Hi Hj. unfold board_get, at_.
  destruct (getitem b i) as [row|] eqn:Hrow; simpl; [|done].
  intros Hv. apply getitem_nonneg in Hrow, Hv; try done.
  destruct (Z.leb_spec 0 i), (Z.leb_spec 0 j); try lia. simpl.
  apply cell_Some. eauto.
Qed.

Lemma board_get_raise b i j e : board_get b i j = Raise e → e = IndexError.
Proof.
  unfold board_get. destruct (getitem b i) eqn:H; simpl.
  - apply getitem_raise.
  - intros [= <-]. by eapply getitem_raise.
Qed.

Lemma board_set_at b i j v x :
  at_ b i j = Some x → board_set b i j v = Ok (put b i j v).
Proof.
  intros (Hi & Hj & (row & Hrow & Hv)%cell_Some)%at_Some.
  unfold board_set, put.
  rewrite <-(Z2Nat.id i) at 1 by done.
  rewrite norm_index_nat by (by eapply lookup_lt_Some). rewrite Hrow.
  rewrite <-(Z2Nat.id j) at 1 by done.
  rewrite norm_index_nat by (by eapply lookup_lt_Some).
  f_equal. apply list_eq. intros k.
  destruct (decide (k = Z.to_nat i)) as [->|].
  - rewrite list_lookup_insert_eq by (by eapply lookup_lt_Some).
    by rewrite list_lookup_alter_eq, Hrow.
  - by rewrite list_lookup_insert_ne, list_lookup_alter_ne.
Qed.

Lemma board_set_raise b i j v e :
  board_set b i j v = Raise e → e = IndexError.
Proof.
  unfold board_set. repeat case_match; congruence.
Qed.

Lemma shape_put b i j v : shape (put b i j v) = shape b.
Proof.
  unfold shape, put. apply list_eq. intros k.
  rewrite !list_lookup_fmap.
  destruct (decide (k = Z.to_nat i)) as [->|].
  - rewrite list_lookup_alter_eq. destruct (b !! Z.to_nat i); simpl; [|done].
    by rewrite length_insert.
  - by rewrite list_lookup_alter_ne.
Qed.

Lemma cell_put b i j v (i' j' : nat) :
  0 ≤ i → 0 ≤ j →
  cell (put b i j v) i' j' =
    if decide (i = Z.of_nat i' ∧ j = Z.of_nat j')
    then (λ _, v) <$> cell b i' j' else cell b i' j'.
Proof.
  intros Hi Hj. unfold cell, put. case_decide as Hd.
  - destruct Hd as [-> ->]. rewrite !Nat2Z.id, list_lookup_alter_eq.
    destruct (b !! i') as [row|]; simpl; [|done].
    destruct (row !! j') eqn:Hr.
    + by rewrite list_lookup_insert_eq by (by eapply lookup_lt_Some).
    + simpl. apply lookup_ge_None. rewrite length_insert.
      by apply lookup_ge_None.
  - destruct (decide (Z.to_nat i = i')) as [<-|].
    + rewrite list_lookup_alter_eq.
      destruct (b !! Z.to_nat i) as [row|]; simpl; [|done].
      apply list_lookup_insert_ne. lia.
    + by rewrite list_lookup_alter_ne.
Qed.

Lemma at_put b i j v i' j' :
  0 ≤ i → 0 ≤ j →
  at_ (put b i j v) i' j' =
    if decide (i = i' ∧ j = j') then (λ _, v) <$> at_ b i' j' else at_ b i' j'.
Proof.
  intros Hi Hj. unfold at_.
  destruct (Z.leb_spec 0 i'), (Z.leb_spec 0 j'); simpl;
    try (by case_decide).
  rewrite cell_put by done. rewrite !Z2Nat.id by done. done.
Qed.

Lemma shape_length b b' : shape b = shape b' → length b = length b'.
Proof. unfold shape. intros H. by rewrite <-(length_fmap length b), H, length_fmap. Qed.

Lemma related_shape r b b' : related r b b' → shape b = shape b'.
Proof.
  unfold related, shape. induction 1 as [|row row' b b' Hrow _ IH]; simpl; [done|].
  f_equal; [by eapply Forall2_length|done].
Qed.

Lemma related_cell r b b' i j v :
  related r b b' → cell b i j = Some v →
  ∃ v', cell b' i j = Some v' ∧ r v v'.
Proof.
  intros Hr (row & Hrow & Hv)%cell_Some.
  destruct (Forall2_lookup_l _ _ _ _ _ Hr Hrow) as (row' & Hrow' & Hrr).
  destruct (Forall2_lookup_l _ _ _ _ _ Hrr Hv) as (v' & Hv' & Hvv).
  exists v'. split; [|done]. apply cell_Some. eauto.
Qed.

Lemma related_at r b b' i j v :
  related r b b' → at_ b i j = Some v → ∃ v', at_ b' i j = Some v' ∧ r v v'.
Proof.
  unfold at_. intros Hr. case_match; [|done]. by apply related_cell.
Qed.

(** Cell by cell: same shape, and related wherever both have a cell. *)
Lemma related_cells r b b' :
  related r b b' ↔
  shape b = shape b' ∧
  ∀ i j v v', cell b i j = Some v → cell b' i j = Some v' → r v v'.
Proof.
  split.
  - intros Hr. split; [by eapply related_shape|].
    intros i j v v' Hv Hv'.
    destruct (related_cell _ _ _ _ _ _ Hr Hv) as (v'' & Hv'' & Hvv). congruence.
  - intros [Hs Hc]. unfold related.
    apply Forall2_same_length_lookup. split; [by apply shape_length|].
    intros i row row' Hrow Hrow'.
    apply Forall2_same_length_lookup. split.
    + assert (shape b !! i = shape b' !! i) as Hi by (by rewrite Hs).
      unfold shape in Hi. rewrite !list_lookup_fmap, Hrow, Hrow' in Hi.
      by injection Hi.
    + intros j v v' Hv Hv'. apply (Hc i j); apply cell_Some; eauto.
Qed.

Lemma related_refl r b : (∀ v, r v v) → related r b b.
Proof.
  intros Hr. unfold related. apply Forall_Forall2_diag, Forall_forall.
  intros row _. by apply Forall_Forall2_diag, Forall_forall.
Qed.

Lemma related_trans r b1 b2 b3 :
  (∀ x y z, r x y → r y z → r x z) →
  related r b1 b2 → related r b2 b3 → related r b1 b3.
Proof.
  intros Hr H12 H23. unfold related in *.
  eapply Forall2_trans; [|done..].
  intros ??? Ha Hb. eapply Forall2_trans; [|done..]. apply Hr.
Qed.

Lemma refill_refl v : refill v v.
Proof. by left. Qed.

Lemma refill_trans x y z : refill x y → refill y z → refill x z.
Proof. unfold refill. lia. Qed.

Lemma refill_pos v v' : refill v v' → (0 <? v') = (0 <? v).
Proof. unfold refill. intros [->|[? ->]]; [done|]. lia. Qed.

Lemma refill_neg v v' : refill v v' → (v' <? 0) = (v <? 0).
Proof. unfold refill. intros [->|[? ->]]; [done|]. lia. Qed.

Lemma refill_pos_eq v v' : refill v v' → 0 < v ∨ 0 < v' → v' = v.
Proof. unfold refill. lia. Qed.

(** On a board whose holes all hold [EMPTY], a refill changes nothing. *)
Lemma refill_holes_empty b b' :
  holes_empty b → related refill b b' → b' = b.
Proof.
  unfold holes_empty, related. intros Hh Hr.
  induction Hr as [|row row' b b' Hrow _ IH]; [done|].
  apply Forall_cons in Hh as [Hh1 Hh2]. f_equal; [|by apply IH].
  clear IH Hh2. induction Hrow as [|v v' row row' Hv _ IH]; [done|].
  apply Forall_cons in Hh1 as [Hv1 Hh1]. f_equal; [|by apply IH].
  destruct Hv as [->|[Hn ->]]; [done|]. by rewrite Hv1.
Qed.

End BoardFacts.

(** ** What [make_move] and [undo_move] do with a legal jump *)

Module JumpFacts.
Import Peg Board Jump BoardFacts.

Lemma offset_cases d dr dc :
  offset d = Some (dr, dc) →
  (d = "w" ∧ dr = -1 ∧ dc = 0) ∨ (d = "a" ∧ dr = 0 ∧ dc = -1) ∨
  (d = "s" ∧ dr = 1 ∧ dc = 0) ∨ (d = "d" ∧ dr = 0 ∧ dc = 1).
Proof.
  unfold offset.
  destruct (String.eqb_spec d "w"); [by intros [= <- <-]; auto 10|].
  destruct (String.eqb_spec d "a"); [by intros [= <- <-]; auto 10|].
  destruct (String.eqb_spec d "s"); [by intros [= <- <-]; auto 10|].
  destruct (String.eqb_spec d "d"); [by intros [= <- <-]; auto 10|].
  done.
Qed.

Lemma offset_unit d dr dc :
  offset d = Some (dr, dc) → Z.abs dr + Z.abs dc = 1.
Proof. intros H. apply offset_cases in H. lia. Qed.

Lemma make_move_offset m s :
  make_move m s =
    (let+ _ := push_move m in
     match offset (m_dir m) with
     | Some (dr, dc) => jump dr dc m
     | None => ret tt
     end) s.
Proof.
  unfold make_move, offset, bind.
  destruct (push_move m s) as [[[]|e] s']; [|done].
  repeat (destruct (String.eqb (m_dir m) _); [done|]). done.
Qed.

Lemma undo_move_offset s :
  undo_move s =
    (let+ m := pop_move in
     match offset (m_dir m) with
     | Some (dr, dc) => unjump dr dc m
     | None => ret tt
     end) s.
Proof.
  unfold undo_move, bind. destruct (pop_move s) as [[m|e] s']; [|done].
  unfold offset.
  repeat (destruct (String.eqb (m_dir m) _); [done|]). done.
Qed.

Lemma jumpable_coords b m dr dc o h :
  jumpable b m dr dc o h →
  0 ≤ m_row m ∧ 0 ≤ m_col m ∧
  0 ≤ m_row m + dr ∧ 0 ≤ m_col m + dc ∧
  0 ≤ m_row m + 2 * dr ∧ 0 ≤ m_col m + 2 * dc.
Proof.
  intros [? Ho ? Hj ? Hh ?].
  apply at_Some in Ho, Hj, Hh. lia.
Qed.

(** [make_move] never looks at what the three cells hold: when they are
    there, they are rewritten and the move, now at its landing cell, is on
    [self.moves]. *)
Lemma make_move_cells b ms m dr dc o x h :
  offset (m_dir m) = Some (dr, dc) →
  at_ b (m_row m) (m_col m) = Some o →
  at_ b (m_row m + dr) (m_col m + dc) = Some x →
  at_ b (m_row m + 2 * dr) (m_col m + 2 * dc) = Some h →
  make_move m (PState b ms) =
    (Ok tt, PState (after_jump b m dr dc o) (ms ++ [landed m dr dc])).
Proof.
  intros Hd Ho Hj Hh.
  pose proof (offset_unit _ _ _ Hd) as Hu.
  apply at_Some in Ho as Ho', Hj as Hj', Hh as Hh'.
  rewrite make_move_offset. unfold bind, push_move. simpl. rewrite Hd.
  unfold jump, bind, wr, rd, shift_last. simpl.
  rewrite (board_set_at _ _ _ _ _ Hj). simpl.
  erewrite board_get_at; last first.
  { rewrite at_put by lia. rewrite decide_False by lia. done. }
  erewrite board_set_at; last first.
  { rewrite at_put by lia. rewrite decide_False by lia. done. }
  simpl.
  erewrite board_set_at; last first.
  { rewrite !at_put by lia. rewrite !decide_False by lia. done. }
  simpl. by rewrite unsnoc_snoc.
Qed.

Lemma make_move_jumpable b ms m dr dc o h :
  jumpable b m dr dc o h →
  make_move m (PState b ms) =
    (Ok tt, PState (after_jump b m dr dc o) (ms ++ [landed m dr dc])).
Proof. intros [Hd Ho ? Hj ? Hh ?]. by eapply make_move_cells. Qed.

(** [undo_move] after that move, on a board where the three cells are
    still there and the landing cell still holds the peg. *)
Lemma undo_move_landed b2 ms m dr dc o x y :
  offset (m_dir m) = Some (dr, dc) →
  at_ b2 (m_row m + 2 * dr) (m_col m + 2 * dc) = Some o →
  at_ b2 (m_row m) (m_col m) = Some x →
  at_ b2 (m_row m + dr) (m_col m + dc) = Some y →
  undo_move (PState b2 (ms ++ [landed m dr dc])) =
    (Ok tt, PState (after_undo b2 m dr dc o) ms).
Proof.
  intros Hd Ho Hx Hy.
  pose proof (offset_unit _ _ _ Hd) as Hu.
  apply at_Some in Ho as Ho', Hx as Hx', Hy as Hy'.
  rewrite undo_move_offset. unfold bind, pop_move. simpl.
  rewrite unsnoc_snoc. simpl. rewrite Hd.
  unfold unjump, bind, wr, rd. simpl.
  replace (m_row m + 2 * dr - 2 * dr) with (m_row m) by lia.
  replace (m_col m + 2 * dc - 2 * dc) with (m_col m) by lia.
  replace (m_row m + 2 * dr - dr) with (m_row m + dr) by lia.
  replace (m_col m + 2 * dc - dc) with (m_col m + dc) by lia.
  rewrite (board_get_at _ _ _ _ Ho). simpl.
  rewrite (board_set_at _ _ _ _ _ Hx). simpl.
  erewrite board_set_at; last first.
  { rewrite at_put by lia. rewrite decide_False by lia. done. }
  simpl.
  erewrite board_set_at; last first.
  { rewrite !at_put by lia. rewrite !decide_False by lia. done. }
  done.
Qed.

Lemma jumpable_refill b b' m dr dc o h :
  jumpable b m dr dc o h → related refill b b' →
  ∃ h', jumpable b' m dr dc o h'.
Proof.
  intros [Hd Ho ? Hj ? Hh ?] Hr.
  destruct (related_at _ _ _ _ _ _ Hr Ho) as (o' & Ho' & Hoo).
  destruct (related_at _ _ _ _ _ _ Hr Hj) as (j' & Hj' & Hjj).
  destruct (related_at _ _ _ _ _ _ Hr Hh) as (h' & Hh' & Hhh).
  apply refill_pos_eq in Hoo as ->, Hjj as ->; [|auto..].
  exists h'. split; try done. unfold refill in Hhh. lia.
Qed.

Lemma legal_refill b b' m : legal b m → related refill b b' → legal b' m.
Proof.
  intros (dr & dc & o & h & Hj) Hr.
  destruct (jumpable_refill _ _ _ _ _ _ _ Hj Hr) as [h' Hj'].
  by exists dr, dc, o, h'.
Qed.

Lemma shape_after_jump b m dr dc o : shape (after_jump b m dr dc o) = shape b.
Proof. unfold after_jump. by rewrite !shape_put. Qed.

Lemma shape_after_undo b m dr dc o : shape (after_undo b m dr dc o) = shape b.
Proof. unfold after_undo. by rewrite !shape_put. Qed.

(** Taking a jump back on a board that is the board after the jump, up
    to refilled holes, gives the board before the jump, up to refilled
    holes. *)
Lemma undo_restores b b2 m dr dc o h :
  jumpable b m dr dc o h →
  related refill (after_jump b m dr dc o) b2 →
  related refill b (after_undo b2 m dr dc o).
Proof.
  intros Hj Hr. pose proof (jumpable_coords _ _ _ _ _ _ Hj) as Hc.
  destruct Hj as [Hd Ho ? Hj ? Hh ?].
  pose proof (offset_unit _ _ _ Hd) as Hu.
  apply related_cells in Hr as [Hs Hr]. apply related_cells. split.
  { by rewrite shape_after_undo, <-Hs, shape_after_jump. }
  intros i j v v' Hv Hv'.
  assert (∃ w, cell b2 i j = Some w) as [w Hw].
  { revert Hv'. unfold after_undo. rewrite !cell_put by lia.
    destruct (cell b2 i j); [eauto|]. by repeat case_decide. }
  assert (∃ u, cell (after_jump b m dr dc o) i j = Some u) as [u Hu'].
  { unfold after_jump. rewrite !cell_put by lia. rewrite Hv.
    repeat case_decide; simpl; eauto. }
  specialize (Hr i j u w Hu' Hw).
  revert Hv' Hu'. unfold after_undo, after_jump.
  rewrite !cell_put by lia. rewrite Hv, Hw. simpl.
  rewrite <-at_nat in Hv.
  repeat case_decide; simpl; intros [= <-] [= <-]; destruct_and?; try lia.
  all: repeat match goal with
         | H : _ = Z.of_nat _ |- _ => rewrite <-H in Hv; clear H
         end.
  all: simplify_eq; unfold refill in *; lia.
Qed.

(** The loop of the search leaves the board as it found it, up to
    refilled holes, when every recursive call that fails does. *)
Lemma try_moves_false rec :
  (∀ s s', rec s = Some (Ok false, s') →
     related refill (st_board s) (st_board s') ∧ st_moves s' = st_moves s) →
  ∀ valids b0 s s',
    Forall (legal b0) valids →
    related refill b0 (st_board s) →
    try_moves rec valids s = Some (Ok false, s') →
    related refill b0 (st_board s') ∧ st_moves s' = st_moves s.
Proof.
  intros Hrec valids b0. induction valids as [|m valids IH];
    intros [b ms] s' Hl Hr; simpl.
  { by intros [= <-]. }
  apply Forall_cons in Hl as [Hm Hl].
  destruct (legal_refill _ _ _ Hm Hr) as (dr & dc & o & h & Hj).
  rewrite (make_move_jumpable _ _ _ _ _ _ _ Hj).
  destruct (rec _) as [[[[|]|e] s2]|] eqn:Hrs; try done.
  apply Hrec in Hrs as [Hr2 Hms2]. simpl in Hr2, Hms2.
  destruct s2 as [b2 ms2]. simpl in *. subst ms2.
  pose proof (undo_restores _ _ _ _ _ _ _ Hj Hr2) as Hr3.
  assert (at_ (after_jump b m dr dc o)
            (m_row m + 2 * dr) (m_col m + 2 * dc) = Some o
          ∧ is_Some (at_ (after_jump b m dr dc o) (m_row m) (m_col m))
          ∧ is_Some (at_ (after_jump b m dr dc o)
                       (m_row m + dr) (m_col m + dc)))
    as (Ho & [x Hx] & [y Hy]).
  { pose proof (jumpable_coords _ _ _ _ _ _ Hj) as Hc.
    destruct Hj as [Hd Ho' ? Hj' ? Hh' ?].
    pose proof (offset_unit _ _ _ Hd) as Hu.
    unfold after_jump. rewrite !at_put by lia. rewrite Ho', Hj', Hh'.
    repeat case_decide; simpl; try lia; eauto. }
  destruct (related_at _ _ _ _ _ _ Hr2 Ho) as (o' & Ho2 & Hoo).
  destruct (related_at _ _ _ _ _ _ Hr2 Hx) as (x' & Hx2 & _).
  destruct (related_at _ _ _ _ _ _ Hr2 Hy) as (y' & Hy2 & _).
  apply refill_pos_eq in Hoo as ->; [|left; by destruct Hj].
  rewrite (undo_move_landed _ _ _ _ _ _ _ _ (j_dir _ _ _ _ _ _ Hj) Ho2 Hx2 Hy2).
  intros Ht. apply IH in Ht; [done|done|]. simpl.
  eapply related_trans; [apply refill_trans|done..].
Qed.

End JumpFacts.

(** ** The moves that [get_valid_moves] returns are legal *)

Module ScanFacts.
Import Peg Board Jump BoardFacts JumpFacts.

Lemma can_jump_true b g hi hj pi pj :
  can_jump b g hi hj pi pj = Ok true →
  g = true ∧ ∃ h p, board_get b hi hj = Ok h ∧ h < 0 ∧
                    board_get b pi pj = Ok p ∧ 0 < p.
Proof.
  unfold can_jump. destruct g; [|done].
  destruct (board_get b hi hj) as [h|] eqn:Hh; simpl; [|done].
  destruct (Z.ltb_spec h 0); [|done].
  destruct (board_get b pi pj) as [p|] eqn:Hp; simpl; [|done].
  intros [= Hpos]. split; [done|]. exists h, p. repeat split; try done. lia.
Qed.

(** A jump found by one of the four tests is a legal move. *)
Lemma found_legal b i col d dr dc o h p :
  offset d = Some (dr, dc) →
  at_ b i col = Some o → 0 < o →
  0 ≤ i + 2 * dr → 0 ≤ col + 2 * dc →
  board_get b (i + 2 * dr) (col + 2 * dc) = Ok h → h < 0 →
  board_get b (i + dr) (col + dc) = Ok p → 0 < p →
  legal b (Move i col d p).
Proof.
  intros Hd Ho ? ? ? Hh ? Hp ?.
  pose proof (offset_unit _ _ _ Hd).
  apply at_Some in Ho as Ho'.
  apply board_get_nonneg in Hh, Hp; try lia.
  exists dr, dc, o, h. by split.
Qed.

Lemma up_legal b i col o l :
  at_ b i col = Some o → 0 < o →
  up_ok b i col = Ok true → up_move b i col = Ok l → Forall (legal b) l.
Proof.
  intros Ho ? (Hg & h & p & Hh & ? & Hp & ?)%can_jump_true. unfold up_move.
  rewrite Hp. simpl. intros [= <-]. apply Forall_singleton.
  apply Z.ltb_lt in Hg. apply at_Some in Ho as Ho'.
  eapply (found_legal b i col "w" (-1) 0); try done; try lia.
  by replace (col + 2 * 0) with col by lia.
  by replace (col + 0) with col by lia.
Qed.

Lemma left_legal b i col o l :
  at_ b i col = Some o → 0 < o →
  left_ok b i col = Ok true → left_move b i col = Ok l → Forall (legal b) l.
Proof.
  intros Ho ? (Hg & h & p & Hh & ? & Hp & ?)%can_jump_true. unfold left_move.
  rewrite Hp. simpl. intros [= <-]. apply Forall_singleton.
  apply Z.ltb_lt in Hg. apply at_Some in Ho as Ho'.
  eapply (found_legal b i col "a" 0 (-1)); try done; try lia.
  by replace (i + 2 * 0) with i by lia.
  by replace (i + 0) with i by lia.
Qed.

Lemma down_legal b i col o l :
  at_ b i col = Some o → 0 < o →
  down_ok b i col = Ok true → down_move b i col = Ok l → Forall (legal b) l.
Proof.
  intros Ho ? (Hg & h & p & Hh & ? & Hp & ?)%can_jump_true. unfold down_move.
  rewrite Hp. simpl. intros [= <-]. apply Forall_singleton.
  apply at_Some in Ho as Ho'.
  eapply (found_legal b i col "s" 1 0); try done; try lia.
  by replace (col + 2 * 0) with col by lia.
  by replace (col + 0) with col by lia.
Qed.

Lemma right_legal b i col o l :
  at_ b i col = Some o → 0 < o →
  right_ok b i col = Ok true → right_move b i col = Ok l → Forall (legal b) l.
Proof.
  intros Ho ? (Hg & h & p & Hh & ? & Hp & ?)%can_jump_true. unfold right_move.
  rewrite Hp. simpl. intros [= <-]. apply Forall_singleton.
  apply at_Some in Ho as Ho'.
  eapply (found_legal b i col "d" 0 1); try done; try lia.
  by replace (i + 2 * 0) with i by lia.
  by replace (i + 0) with i by lia.
Qed.

(** The two loops visit the cells that hold a peg, and only collect what
    [peg] gives for them. *)
Section Scan.
Variable peg : board → Z → Z → res (list move).
Variable b : board.
Variable P : move → Prop.
Hypothesis peg_P : ∀ (i col : nat) o l,
  cell b i col = Some o → 0 < o →
  peg b (Z.of_nat i) (Z.of_nat col) = Ok l → Forall P l.

Lemma scan_cols_Forall i row col valids out :
  (∀ k v, row !! k = Some v → cell b i (col + k) = Some v) →
  Forall P valids →
  scan_cols peg b i col row valids = Ok out → Forall P out.
Proof.
  revert col valids. induction row as [|v row IH]; intros col valids Hrow Hv; simpl.
  { by intros [= <-]. }
  assert (∀ k v', row !! k = Some v' → cell b i (S col + k) = Some v') as Hrow'.
  { intros k v' Hk. replace (S col + k)%nat with (col + S k)%nat by lia.
    by apply Hrow. }
  destruct (Z.ltb_spec 0 v); [|by apply IH].
  destruct (peg b _ _) as [new|] eqn:Hpeg; simpl; [|done].
  apply IH; [done|]. apply Forall_app. split; [done|].
  eapply peg_P; [|done..]. specialize (Hrow 0%nat v eq_refl).
  by rewrite Nat.add_0_r in Hrow.
Qed.

Lemma scan_rows_Forall i rows valids out :
  (∀ k row, rows !! k = Some row → b !! (i + k)%nat = Some row) →
  Forall P valids →
  scan_rows peg b i rows valids = Ok out → Forall P out.
Proof.
  revert i valids. induction rows as [|row rows IH]; intros i valids Hrows Hv; simpl.
  { by intros [= <-]. }
  destruct (scan_cols peg b i 0 row valids) as [valids'|] eqn:Hc; simpl; [|done].
  apply IH.
  - intros k row' Hk. replace (S i + k)%nat with (i + S k)%nat by lia.
    by apply Hrows.
  - eapply scan_cols_Forall; [|done..].
    intros k v Hk. apply cell_Some. exists row. split; [|done].
    specialize (Hrows 0%nat row eq_refl). by rewrite Nat.add_0_r in Hrows.
Qed.

Lemma scan_board_Forall out :
  scan_rows peg b 0 b [] = Ok out → Forall P out.
Proof. apply scan_rows_Forall; [done|constructor]. Qed.
End Scan.

Lemma british_peg_moves_legal b (i col : nat) o l :
  cell b i col = Some o → 0 < o →
  British.peg_moves b (Z.of_nat i) (Z.of_nat col) = Ok l → Forall (legal b) l.
Proof.
  rewrite <-at_nat. intros Ho Hpos. unfold British.peg_moves.
  destruct (up_ok b _ _) as [[|]|] eqn:Hw; simpl; try done.
  { by eapply up_legal. }
  destruct (left_ok b _ _) as [[|]|] eqn:Ha; simpl; try done.
  { by eapply left_legal. }
  destruct (down_ok b _ _) as [[|]|] eqn:Hs; simpl; try done.
  { by eapply down_legal. }
  destruct (right_ok b _ _) as [[|]|] eqn:Hd; simpl; try done.
  { by eapply right_legal. }
  intros [= <-]. constructor.
Qed.

Lemma british_moves_legal b valids :
  British.get_valid_moves b = Ok valids → Forall (legal b) valids.
Proof. apply scan_board_Forall, british_peg_moves_legal. Qed.

Lemma european_peg_moves_legal b (i col : nat) o l :
  cell b i col = Some o → 0 < o →
  European.peg_moves b (Z.of_nat i) (Z.of_nat col) = Ok l → Forall (legal b) l.
Proof.
  rewrite <-at_nat. intros Ho Hpos. unfold European.peg_moves.
  destruct (up_ok b _ _) as [w|] eqn:Hw; simpl; [|done].
  destruct (if w then _ else _) as [mw|] eqn:Hmw; simpl; [|done].
  destruct (left_ok b _ _) as [a|] eqn:Ha; simpl; [|done].
  destruct (if a then _ else _) as [ma|] eqn:Hma; simpl; [|done].
  destruct (down_ok b _ _) as [s|] eqn:Hs; simpl; [|done].
  destruct (if s then _ else _) as [ms|] eqn:Hms; simpl; [|done].
  destruct (right_ok b _ _) as [d|] eqn:Hd; simpl; [|done].
  destruct (if d then _ else _) as [md|] eqn:Hmd; simpl; [|done].
  intros [= <-]. rewrite !Forall_app. repeat split.
  - destruct w; [by eapply up_legal|]. injection Hmw as <-. constructor.
  - destruct a; [by eapply left_legal|]. injection Hma as <-. constructor.
  - destruct s; [by eapply down_legal|]. injection Hms as <-. constructor.
  - destruct d; [by eapply right_legal|]. injection Hmd as <-. constructor.
Qed.

Lemma european_moves_legal b valids :
  European.get_valid_moves b = Ok valids → Forall (legal b) valids.
Proof. apply scan_board_Forall, european_peg_moves_legal. Qed.

End ScanFacts.

(** ** Counting pegs *)

Module PegCount.
Import Peg Board Jump BoardFacts JumpFacts.


Lemma pegs_row_cons v row :
  pegs_row (v :: row) = (peg_at v + pegs_row row)%nat.
Proof.
  unfold pegs_row, peg_at. rewrite filter_cons.
  destruct (Z.ltb_spec 0 v); by case_decide; try lia.
Qed.

Lemma pegs_cons row b : pegs (row :: b) = (pegs_row row + pegs b)%nat.
Proof. done. Qed.

Lemma pegs_row_insert row (j : nat) x v :
  row !! j = Some x →
  (pegs_row (<[j:=v]> row) + peg_at x = pegs_row row + peg_at v)%nat.
Proof.
  revert j. induction row as [|y row IH]; intros [|j]; simpl; try done.
  - intros [= ->]. rewrite !pegs_row_cons. lia.
  - intros Hx. rewrite !pegs_row_cons. specialize (IH j Hx).
    revert IH. generalize (pegs_row (<[j:=v]> row)) (pegs_row row). lia.
Qed.

Lemma pegs_alter b (i j : nat) x v :
  cell b i j = Some x →
  (pegs (alter (<[j:=v]>) i b) + peg_at x = pegs b + peg_at v)%nat.
Proof.
  revert i. induction b as [|row b IH]; intros [|i]; unfold cell; try done.
  - intros Hx. simpl in Hx.
    change (alter (<[j:=v]>) 0%nat (row :: b)) with (<[j:=v]> row :: b).
    rewrite !pegs_cons. pose proof (pegs_row_insert row j x v Hx) as H.
    revert H. generalize (pegs_row (<[j:=v]> row)) (pegs_row row). lia.
  - intros Hx. simpl in Hx.
    change (alter (<[j:=v]>) (S i) (row :: b)) with (row :: alter (<[j:=v]>) i b).
    rewrite !pegs_cons. specialize (IH i Hx).
    revert IH. generalize (pegs (alter <[j:=v]> i b)) (pegs b). lia.
Qed.

Lemma pegs_put b i j x v :
  at_ b i j = Some x →
  (pegs (put b i j v) + peg_at x = pegs b + peg_at v)%nat.
Proof. intros (_ & _ & Hx)%at_Some. by apply pegs_alter. Qed.

(** Each jump removes exactly one peg. *)
Lemma pegs_after_jump b m dr dc o h :
  jumpable b m dr dc o h → S (pegs (after_jump b m dr dc o)) = pegs b.
Proof.
  intros Hj. pose proof (jumpable_coords _ _ _ _ _ _ Hj) as Hc.
  destruct Hj as [Hd Ho ? Hj ? Hh ?].
  pose proof (offset_unit _ _ _ Hd) as Hu.
  unfold after_jump.
  pose proof (pegs_put b _ _ _ (-1) Hj) as H1.
  set (b1 := put b _ _ (-1)) in *.
  assert (at_ b1 (m_row m + 2 * dr) (m_col m + 2 * dc) = Some h) as Hh1.
  { unfold b1. rewrite at_put by lia. by rewrite decide_False by lia. }
  pose proof (pegs_put b1 _ _ _ o Hh1) as H2.
  set (b2 := put b1 _ _ o) in *.
  assert (at_ b2 (m_row m) (m_col m) = Some o) as Ho2.
  { unfold b2, b1. rewrite !at_put by lia. by rewrite !decide_False by lia. }
  pose proof (pegs_put b2 _ _ _ (-1) Ho2) as H3.
  revert H1 H2 H3. unfold peg_at.
  destruct (Z.ltb_spec 0 (m_jumped m)), (Z.ltb_spec 0 h), (Z.ltb_spec 0 o);
    simpl; lia.
Qed.

Lemma pegs_row_refill row row' :
  Forall2 refill row row' → pegs_row row' = pegs_row row.
Proof.
  induction 1 as [|v v' row row' Hv _ IH]; [done|].
  rewrite !pegs_row_cons, IH. unfold peg_at. by rewrite (refill_pos _ _ Hv).
Qed.

Lemma pegs_refill b b' : related refill b b' → pegs b' = pegs b.
Proof.
  induction 1 as [|row row' b b' Hrow _ IH]; [done|].
  rewrite !pegs_cons, IH. by rewrite (pegs_row_refill _ _ Hrow).
Qed.

End PegCount.

(** ** [british/dfs.py]: a failed search restores the board, and the search
    returns *)

Module BritishFacts.
Import Peg Board Jump BoardFacts JumpFacts ScanFacts PegCount British.

Lemma solve_false fuel s s' :
  solve fuel s = Some (Ok false, s') →
  related refill (st_board s) (st_board s') ∧ st_moves s' = st_moves s.
Proof.
  revert s s'. induction fuel as [|fuel IH]; intros s s'; simpl; [done|].
  destruct (truthy _); [done|].
  destruct (get_valid_moves _) as [valids|] eqn:Hv; [|done].
  intros Ht. eapply try_moves_false in Ht; [done|exact IH| |].
  - by apply british_moves_legal.
  - apply related_refl, refill_refl.
Qed.

(** The loop returns when every recursive call on a board with fewer pegs
    does. *)
Lemma try_moves_returns rec (n : nat) :
  (∀ s s', rec s = Some (Ok false, s') →
     related refill (st_board s) (st_board s') ∧ st_moves s' = st_moves s) →
  (∀ s, (pegs (st_board s) < n)%nat → is_Some (rec s)) →
  ∀ valids b0 s,
    (pegs b0 ≤ n)%nat →
    Forall (legal b0) valids →
    related refill b0 (st_board s) →
    is_Some (try_moves rec valids s).
Proof.
  intros Hfalse Hret valids b0. induction valids as [|m valids IH];
    intros [b ms] Hn Hl Hr; simpl; [done|]. cbn [st_board] in Hr.
  apply Forall_cons in Hl as [Hm Hl].
  destruct (legal_refill _ _ _ Hm Hr) as (dr & dc & o & h & Hj).
  rewrite (make_move_jumpable _ _ _ _ _ _ _ Hj).
  pose proof (pegs_after_jump _ _ _ _ _ _ Hj) as Hp.
  pose proof (pegs_refill b0 b Hr) as Hp'.
  destruct (Hret (PState (after_jump b m dr dc o) (ms ++ [landed m dr dc])))
    as [[[[|]|e] s2] Hrs]; [cbn [st_board]; lia|rewrite Hrs..]; try done.
  destruct (Hfalse _ _ Hrs) as [Hr2 Hms2]. destruct s2 as [b2 ms2].
  simpl in Hr2, Hms2. subst ms2.
  assert (try_moves rec [m] (PState b ms) =
            match undo_move (PState b2 (ms ++ [landed m dr dc])) with
            | (Raise e, s3) => Some (Raise e, s3)
            | (Ok _, s3) => Some (Ok false, s3)
            end) as Hone.
  { simpl. rewrite (make_move_jumpable _ _ _ _ _ _ _ Hj), Hrs.
    by destruct (undo_move _) as [[[]|?] ?]. }
  destruct (undo_move _) as [[[]|e] s3] eqn:Hu; [|done].
  eapply try_moves_false in Hone as [Hr3 _]; [|done|by constructor|done].
  apply IH; [done|done|done].
Qed.

Lemma solve_returns fuel s :
  (pegs (st_board s) < fuel)%nat → is_Some (solve fuel s).
Proof.
  revert s. induction fuel as [|fuel IH]; intros s Hn; simpl; [lia|].
  destruct (truthy _); [done|].
  destruct (get_valid_moves _) as [valids|] eqn:Hv; [|done].
  eapply (try_moves_returns _ fuel); [apply solve_false|exact IH|..].
  - apply Nat.lt_succ_r, Hn.
  - by apply british_moves_legal.
  - apply related_refl, refill_refl.
Qed.

End BritishFacts.

(** ** The canonical encoding does not see refilled holes *)

Module EncodeFacts.
Import Peg Board BoardFacts BritishMemo.

Lemma bits_row_refill row row' :
  Forall2 refill row row' →
  (λ cell, 0 <? cell) <$> row' = (λ cell, 0 <? cell) <$> row.
Proof.
  induction 1 as [|v v' row row' Hv _ IH]; [done|].
  rewrite !fmap_cons, IH. by rewrite (refill_pos _ _ Hv).
Qed.

Lemma bits_refill b b' : related refill b b' → bits b' = bits b.
Proof.
  unfold bits. induction 1 as [|row row' b b' Hrow _ IH]; [done|].
  change (concat (row :: b)) with (row ++ concat b).
  change (concat (row' :: b')) with (row' ++ concat b').
  by rewrite !fmap_app, IH, (bits_row_refill _ _ Hrow).
Qed.

Lemma encode_board_refill b b' :
  related refill b b' → encode_board b' = encode_board b.
Proof. intros H. unfold encode_board. by rewrite (bits_refill _ _ H). Qed.

End EncodeFacts.

(** ** Scenarios on concrete boards *)

Module PegScenarios.
Import Peg Board Jump Positions BoardFacts JumpFacts.

(** C3, [british/dfs.py]: on [two_ways] the peg at [(3, 3)] has two legal
    jumps, up and left, and [get_valid_moves], whose tests are chained by
    [elif], returns the first only; the [get_valid_moves] of
    [european/search-sep.py], whose tests are separate [if]s, returns
    both. *)
Theorem british_get_valid_moves_misses_jump :
  legal two_ways (Move 3 3 "w" 10) ∧
  legal two_ways (Move 3 3 "a" 16) ∧
  British.get_valid_moves two_ways = Ok [Move 3 3 "w" 10] ∧
  European.get_valid_moves two_ways = Ok [Move 3 3 "w" 10; Move 3 3 "a" 16].
Proof.
  split; [|split; [|split]].
  - exists (-1), 0, 5, (-1). by split.
  - exists 0, (-1), 5, (-1). by split.
  - reflexivity.
  - reflexivity.
Qed.

(** C8: [make_move] checks nothing.  On the board of [british/dfs.py] the
    move [[2, 3, "s", 17]] is not one that [get_valid_moves] returns (the
    cell below [(2, 3)] is the hole, and a peg stands two cells below);
    [make_move] takes it without an error, and the peg 23 at [(4, 3)] is
    overwritten. *)
Lemma make_move_takes_illegal_move :
  ∃ valids s',
    British.get_valid_moves British.main_board = Ok valids ∧
    (Move 2 3 "s" 17 ∉ valids) ∧
    make_move (Move 2 3 "s" 17) (PState British.main_board []) = (Ok tt, s') ∧
    st_board s' ≠ British.main_board ∧
    at_ British.main_board 4 3 = Some 23 ∧ at_ (st_board s') 4 3 = Some 10.
Proof.
  eexists _, _. split; [reflexivity|]. split.
  { intros H. by repeat (apply elem_of_cons in H as [?|H]; [done|]); inv H. }
  split; [reflexivity|]. by repeat split.
Qed.

(** C8, as the code has it: [make_move] does no check of its own.  The
    only exception it raises is the [IndexError] of a subscript; when the
    direction is one of the four and the three cells are there, whatever
    they hold, it returns with the three cells rewritten and the move
    recorded; with any other direction it records the move and leaves the
    board alone. *)
Theorem make_move_unchecked (m : move) (s : pstate) :
  (∀ e s', make_move m s = (Raise e, s') → e = IndexError) ∧
  (∀ dr dc o x h,
     offset (m_dir m) = Some (dr, dc) →
     at_ (st_board s) (m_row m) (m_col m) = Some o →
     at_ (st_board s) (m_row m + dr) (m_col m + dc) = Some x →
     at_ (st_board s) (m_row m + 2 * dr) (m_col m + 2 * dc) = Some h →
     make_move m s =
       (Ok tt, PState (after_jump (st_board s) m dr dc o)
                 (st_moves s ++ [landed m dr dc]))) ∧
  (offset (m_dir m) = None →
     make_move m s = (Ok tt, PState (st_board s) (st_moves s ++ [m]))).
Proof.
  split; [|split].
  - intros e s'. rewrite make_move_offset. unfold bind, push_move. simpl.
    destruct (offset (m_dir m)) as [[dr dc]|]; [|done].
    unfold jump, bind, wr, rd, shift_last. simpl.
    repeat match goal with
      | |- context [board_set ?b ?i ?j ?v] =>
          let H := fresh "H" in
          destruct (board_set b i j v) eqn:H; simpl;
          [|apply board_set_raise in H; by intros [= <- _]]
      | |- context [board_get ?b ?i ?j] =>
          let H := fresh "H" in
          destruct (board_get b i j) eqn:H; simpl;
          [|apply board_get_raise in H; by intros [= <- _]]
      end.
    done.
  - intros dr dc o x h Hd Ho Hx Hh. destruct s as [b ms].
    by eapply make_move_cells.
  - intros Hd. rewrite make_move_offset. unfold bind, push_move. simpl.
    by rewrite Hd.
Qed.

Lemma make_move_unchecked_witness :
  make_move (Move 2 3 "s" 17) (PState British.main_board []) =
    (Ok tt, PState (after_jump British.main_board (Move 2 3 "s" 17) 1 0 10)
              ([] ++ [landed (Move 2 3 "s" 17) 1 0])).
Proof.
  apply (proj1 (proj2 (make_move_unchecked (Move 2 3 "s" 17)
                         (PState British.main_board []))) 1 0 10 (-1) 23);
    reflexivity.
Defined.

(** C5, [european/search-sep.py]: from [two_pegs] one jump leaves a single
    peg, and [bfs] returns [None]: every board it compares against
    [visited] is the copy of the first board, because [make_move] writes
    to the global [board] and not to the copy. *)
Theorem bfs_returns_no_solution (fuel : nat) :
  (∃ b', plays two_pegs [Move 3 2 "d" 7] b' ∧
         European.is_solved b' = Some true) ∧
  ∃ st, European.bfs (S (S fuel)) two_pegs [] = Some (Ok None, st).
Proof.
  split.
  - eexists. split.
    + eapply (plays_cons _ _ 0 1 5 (-1)); [by split|]. constructor.
    + reflexivity.
  - eexists. vm_compute. reflexivity.
Qed.

(** C4, [european/search-sep.py]: expanding the first position applies the
    moves to the global [board], which is the caller's [root.board]; the
    copy made for the neighbour keeps the cells of the first board. *)
Theorem bfs_writes_to_callers_board :
  ∃ neighbour st,
    European.expand (European.Game two_pegs [] 0 0) 1
      [Move 3 2 "d" 7]
      (European.BfsState two_pegs [] ∅ 0) = (Ok tt, st) ∧
    European.bs_queue st = [neighbour] ∧
    European.g_board neighbour = two_pegs ∧
    European.bs_board st ≠ two_pegs ∧
    ∃ st', European.bfs 2 two_pegs [] = Some (Ok None, st') ∧
           European.bs_board st' ≠ two_pegs.
Proof.
  eexists _, _. split; [vm_compute; reflexivity|].
  split; [reflexivity|]. split; [reflexivity|]. split; [done|].
  eexists. split; [vm_compute; reflexivity|]. done.
Qed.

End PegScenarios.

(** ** [sudoku/solver.py]: placing a digit and taking it back *)

Module SudokuFacts.
Import Sudoku.

Lemma sets_of_with_sets g g' sets s :
  sets_of g (with_sets g' sets s) = if decide (g = g') then sets else sets_of g s.
Proof. by destruct g, g', s. Qed.

Lemma board_with_sets g sets s : s_board (with_sets g sets s) = s_board s.
Proof. by destruct g. Qed.

Lemma empties_with_sets g sets s : s_empties (with_sets g sets s) = s_empties s.
Proof. by destruct g. Qed.

Lemma with_sets_id g s : with_sets g (sets_of g s) s = s.
Proof. by destruct g, s. Qed.

Lemma with_sets_twice g sets sets' s :
  with_sets g sets' (with_sets g sets s) = with_sets g sets' s.
Proof. by destruct g, s. Qed.

Lemma with_sets_comm g g' sets sets' s :
  g ≠ g' →
  with_sets g sets (with_sets g' sets' s) = with_sets g' sets' (with_sets g sets s).
Proof. by destruct g, g', s. Qed.

Lemma fresh_add_remove (X : gset string) v : v ∉ X → ({[v]} ∪ X) ∖ {[v]} = X.
Proof.
  intros Hv. apply set_eq. intros x.
  rewrite elem_of_difference, elem_of_union, elem_of_singleton.
  split; [tauto|]. intros Hx. split; [tauto|]. by intros ->.
Qed.

(** [set_add] then [set_remove] of a value that was not in the set. *)
Lemma set_add_remove g k v s X :
  sets_of g s !! k = Some X → v ∉ X →
  ∃ s1, set_add g k v s = (Ok tt, s1) ∧
        s1 = with_sets g (<[k := {[v]} ∪ X]> (sets_of g s)) s ∧
        set_remove g k v s1 = (Ok tt, s).
Proof.
  intros HX Hv. eexists. split; [|split; [done|]].
  { unfold set_add. by rewrite HX. }
  unfold set_remove. rewrite sets_of_with_sets, decide_True by done.
  rewrite list_lookup_insert_eq by (by eapply lookup_lt_Some).
  rewrite bool_decide_true by (apply elem_of_union_l, elem_of_singleton_2; done).
  rewrite with_sets_twice, list_insert_insert_eq, fresh_add_remove by done.
  by rewrite list_insert_id, with_sets_id.
Qed.

Lemma allowed_true r c b d s :
  allowed r c b d s = Ok true →
  ∃ R C B, sets_of Rows s !! r = Some R ∧ (d ∉ R) ∧
           sets_of Cols s !! c = Some C ∧ (d ∉ C) ∧
           sets_of Boxes s !! b = Some B ∧ (d ∉ B).
Proof.
  unfold allowed, get_set.
  destruct (sets_of Rows s !! r) as [R|]; cbn [rbind]; [|done].
  case_bool_decide as HR; [done|].
  destruct (sets_of Cols s !! c) as [C|]; cbn [rbind]; [|done].
  case_bool_decide as HC; [done|].
  destruct (sets_of Boxes s !! b) as [B|]; cbn [rbind]; [|done].
  case_bool_decide as HB; [|done]. intros _. by exists R, C, B.
Qed.

(** The candidates of [validMove] are the digits that pass the test. *)
Lemma validMove_loop_allowed r c b s ds acc out :
  validMove_loop r c b ds acc s = Ok out →
  Forall (λ d, allowed r c b d s = Ok true) acc →
  Forall (λ d, allowed r c b d s = Ok true) out.
Proof.
  revert acc. induction ds as [|d ds IH]; intros acc; simpl.
  { by intros [= <-]. }
  destruct (allowed r c b d s) as [[|]|] eqn:Hd; simpl; [| |done].
  - intros Hl Hacc. apply (IH _ Hl). apply Forall_app. split; [done|].
    by apply Forall_singleton.
  - apply IH.
Qed.

Lemma validMove_allowed s r c moves :
  validMove s (r, c) = Ok moves →
  Forall (λ d, allowed r c (box r c) d s = Ok true) moves.
Proof. intros H. eapply validMove_loop_allowed; [done|constructor]. Qed.

(** When the three sets are there, the candidates are the digits in none
    of them, in the order of ["123456789"]. *)
Lemma validMove_loop_filter r c b s R C B ds acc :
  sets_of Rows s !! r = Some R →
  sets_of Cols s !! c = Some C →
  sets_of Boxes s !! b = Some B →
  validMove_loop r c b ds acc s = Ok (acc ++ filter (λ d, d ∉ R ∪ C ∪ B) ds).
Proof.
  intros HR HC HB. revert acc. induction ds as [|d ds IH]; intros acc; simpl.
  { by rewrite app_nil_r. }
  unfold allowed, get_set. rewrite HR, HC, HB. simpl. rewrite filter_cons.
  case_bool_decide as H1; simpl.
  { rewrite IH. rewrite decide_False by set_solver. done. }
  case_bool_decide as H2; simpl.
  { rewrite IH. rewrite decide_False by set_solver. done. }
  case_bool_decide as H3; simpl.
  - rewrite IH. rewrite decide_True by set_solver. by rewrite <-app_assoc.
  - rewrite IH. rewrite decide_False by set_solver. done.
Qed.

(** [# place] then [# undo] on an empty cell, with a digit that passes the
    test: no exception, and the state is what it was. *)
Lemma place_undo r c b move s row :
  s_board s !! r = Some row → row !! c = Some "." →
  allowed r c b move s = Ok true →
  ∃ s1, place r c b move s = (Ok tt, s1) ∧
        s_board s1 = <[r := <[c := move]> row]> (s_board s) ∧
        s_empties s1 = s_empties s ∧
        (∀ g, sets_of g s1 =
              alter (λ X, {[move]} ∪ X)
                (match g with Rows => r | Cols => c | Boxes => b end)
                (sets_of g s)) ∧
        undo r c b move s1 = (Ok tt, s).
Proof.
  intros Hrow Hc (R & C & B & HR & HmR & HC & HmC & HB & HmB)%allowed_true.
  destruct s as [bd em rs cs bs]. simpl in *.
  eexists. split; [|split; [|split; [|split]]].
  - unfold place, bind, board_set, set_add. simpl.
    rewrite Hrow, Hc. simpl. rewrite HR. simpl. rewrite HC. simpl.
    rewrite HB. simpl. reflexivity.
  - done.
  - done.
  - intros []; simpl; apply list_eq; intros k.
    + destruct (decide (k = r)) as [->|].
      * rewrite list_lookup_insert_eq by (by eapply lookup_lt_Some).
        by rewrite list_lookup_alter_eq, HR.
      * by rewrite list_lookup_insert_ne, list_lookup_alter_ne.
    + destruct (decide (k = c)) as [->|].
      * rewrite list_lookup_insert_eq by (by eapply lookup_lt_Some).
        by rewrite list_lookup_alter_eq, HC.
      * by rewrite list_lookup_insert_ne, list_lookup_alter_ne.
    + destruct (decide (k = b)) as [->|].
      * rewrite list_lookup_insert_eq by (by eapply lookup_lt_Some).
        by rewrite list_lookup_alter_eq, HB.
      * by rewrite list_lookup_insert_ne, list_lookup_alter_ne.
  - unfold undo, bind, board_set, set_remove. simpl.
    rewrite list_lookup_insert_eq by (by eapply lookup_lt_Some).
    rewrite list_lookup_insert_eq by (by eapply lookup_lt_Some). simpl.
    rewrite list_lookup_insert_eq by (by eapply lookup_lt_Some).
    rewrite bool_decide_true by (apply elem_of_union_l, elem_of_singleton_2; done).
    simpl. rewrite list_lookup_insert_eq by (by eapply lookup_lt_Some).
    rewrite bool_decide_true by (apply elem_of_union_l, elem_of_singleton_2; done).
    simpl. rewrite list_lookup_insert_eq by (by eapply lookup_lt_Some).
    rewrite bool_decide_true by (apply elem_of_union_l, elem_of_singleton_2; done).
    simpl. rewrite !list_insert_insert_eq.
    rewrite !fresh_add_remove by done.
    rewrite (list_insert_id row c ".") by done.
    by rewrite (list_insert_id bd r row), (list_insert_id rs r R),
      (list_insert_id cs c C), (list_insert_id bs b B).
Qed.

Lemma board_get_Ok r c s v s' :
  board_get r c s = (Ok v, s') →
  s' = s ∧ ∃ row, s_board s !! r = Some row ∧ row !! c = Some v.
Proof.
  unfold board_get. destruct (s_board s !! r) as [row|]; [|done].
  destruct (row !! c) as [v'|] eqn:Hv; [|done]. intros [= <- <-]. eauto.
Qed.

(** The loop of [dfs_rec] leaves the state as it found it when every
    recursive call that fails does. *)
Lemma try_digits_false rec r c b :
  (∀ s s' log, rec s = Some (Ok false, s', log) → s' = s) →
  ∀ moves s s' log row,
    s_board s !! r = Some row → row !! c = Some "." →
    Forall (λ d, allowed r c b d s = Ok true) moves →
    try_digits rec r c b moves s = Some (Ok false, s', log) → s' = s.
Proof.
  intros Hrec moves. induction moves as [|move moves IH];
    intros s s' log row Hrow Hc Hall; simpl.
  { by intros [= <- _]. }
  apply Forall_cons in Hall as [Hmove Hall].
  destruct (place_undo r c b move s row Hrow Hc Hmove)
    as (s1 & -> & _ & _ & _ & Hundo).
  destruct (rec s1) as [[[[[|]|e] s2] log2]|] eqn:Hrs; try done.
  apply Hrec in Hrs as ->. rewrite Hundo.
  destruct (try_digits rec r c b moves s) as [[[res s4] log4]|] eqn:Ht; [|done].
  intros [= -> <- _]. by eapply IH.
Qed.

Lemma dfs_rec_log_S fuel idx s :
  dfs_rec_log (S fuel) idx s =
    if decide (idx = length (s_empties s)) then Some (Ok true, s, [])
    else
      match s_empties s !! idx with
      | None => Some (Raise IndexError, s, [])
      | Some (r, c) =>
          match board_get r c s with
          | (Raise e, _) => Some (Raise e, s, [])
          | (Ok v, _) =>
              if negb (String.eqb v ".") then dfs_rec_log fuel (S idx) s
              else
                match validMove s (r, c) with
                | Raise e => Some (Raise e, s, [])
                | Ok moves =>
                    try_digits (dfs_rec_log fuel (S idx)) r c (box r c) moves s
                end
          end
      end.
Proof. reflexivity. Qed.

Lemma dfs_rec_log_false fuel idx s s' log :
  dfs_rec_log fuel idx s = Some (Ok false, s', log) → s' = s.
Proof.
  revert idx s s' log. induction fuel as [|fuel IH]; intros idx s s' log;
    [done|].
  rewrite dfs_rec_log_S. case_decide; [done|].
  destruct (s_empties s !! idx) as [[r c]|]; [|done].
  destruct (board_get r c s) as [[v|e] s0] eqn:Hg; [|done].
  apply board_get_Ok in Hg as (-> & row & Hrow & Hv).
  destruct (String.eqb_spec v "."); cbn [negb]; [subst v|by apply IH].
  destruct (validMove s (r, c)) as [moves|] eqn:Hm; [|done].
  apply validMove_allowed in Hm.
  eapply try_digits_false; [|done..]. intros ???. apply IH.
Qed.

Lemma keeps_empties_bind {A B} (m : stmt sstate A) (k : A → stmt sstate B) :
  keeps_empties m → (∀ a, keeps_empties (k a)) → keeps_empties (bind m k).
Proof.
  intros Hm Hk s r s'. unfold bind.
  destruct (m s) as [[a|e] s1] eqn:H1.
  - intros H2. apply Hk in H2. apply Hm in H1. congruence.
  - intros [= <- <-]. by apply Hm in H1.
Qed.

Lemma set_add_keeps_empties g k v : keeps_empties (set_add g k v).
Proof.
  intros s r s'. unfold set_add. destruct (sets_of g s !! k).
  - intros [= <- <-]. apply empties_with_sets.
  - by intros [= <- <-].
Qed.

Lemma set_remove_keeps_empties g k v : keeps_empties (set_remove g k v).
Proof.
  intros s r s'. unfold set_remove. destruct (sets_of g s !! k).
  - case_bool_decide; intros [= <- <-]; [apply empties_with_sets|done].
  - by intros [= <- <-].
Qed.

Lemma board_set_keeps_empties r c v : keeps_empties (board_set r c v).
Proof.
  intros s res s'. unfold board_set.
  destruct (s_board s !! r) as [row|]; [destruct (row !! c)|];
    by intros [= <- <-].
Qed.

Lemma place_keeps_empties r c b move : keeps_empties (place r c b move).
Proof.
  unfold place. repeat (apply keeps_empties_bind; [|intros _]);
    auto using set_add_keeps_empties, board_set_keeps_empties.
Qed.

Lemma undo_keeps_empties r c b move : keeps_empties (undo r c b move).
Proof.
  unfold undo. repeat (apply keeps_empties_bind; [|intros _]);
    auto using set_remove_keeps_empties, board_set_keeps_empties.
Qed.

(** The loop returns when the recursive call does on every state with the
    same [empties]. *)
Lemma try_digits_returns rec r c b em :
  (∀ s s' log, rec s = Some (Ok false, s', log) → s' = s) →
  (∀ s, s_empties s = em → is_Some (rec s)) →
  ∀ moves s, s_empties s = em → is_Some (try_digits rec r c b moves s).
Proof.
  intros Hfalse Hret moves. induction moves as [|move moves IH];
    intros s Hem; simpl; [done|].
  destruct (place r c b move s) as [[[]|e] s1] eqn:Hp; [|done].
  apply place_keeps_empties in Hp.
  destruct (Hret s1) as [[[[[|]|e] s2] log] Hrs]; [congruence|rewrite Hrs..];
    try done.
  apply Hfalse in Hrs as ->.
  destruct (undo r c b move s1) as [[[]|e] s3] eqn:Hu; [|done].
  apply undo_keeps_empties in Hu.
  destruct (IH s3) as [[[res s4] log4] ->]; [congruence|done].
Qed.

(** [dfs_rec(idx)] returns within a recursion depth of one more than the
    number of entries of [empties] from [idx] on. *)
Lemma dfs_rec_log_returns fuel idx s :
  (length (s_empties s) - idx < fuel)%nat → is_Some (dfs_rec_log fuel idx s).
Proof.
  revert idx s. induction fuel as [|fuel IH]; intros idx s Hf; [lia|].
  rewrite dfs_rec_log_S. case_decide as Hidx; [done|].
  destruct (s_empties s !! idx) as [[r c]|] eqn:He; [|done].
  apply lookup_lt_Some in He.
  destruct (board_get r c s) as [[v|e] s0] eqn:Hg; [|done].
  destruct (negb _); [apply IH; lia|].
  destruct (validMove s (r, c)) as [moves|]; [|done].
  apply (try_digits_returns _ _ _ _ (s_empties s)); [| |done].
  - intros ???. apply dfs_rec_log_false.
  - intros s1 Hs1. apply IH. rewrite Hs1. lia.
Qed.

(** *** The cells of a grid and the values of a row, column or box *)

Lemma elem_of_row_entries i j0 row i' j v :
  (i', j, v) ∈ row_entries i j0 row ↔
  i' = i ∧ ∃ k, j = (j0 + k)%nat ∧ row !! k = Some v.
Proof.
  revert j0. induction row as [|x row IH]; intros j0; simpl.
  { split; [by intros ?%elem_of_nil|]. by intros (_ & k & _ & ?). }
  rewrite elem_of_cons, IH. split.
  - intros [[= -> -> ->]|(-> & k & -> & Hk)].
    + split; [done|]. exists 0%nat. split; [lia|done].
    + split; [done|]. exists (S k). split; [lia|done].
  - intros (-> & [|k] & -> & Hk).
    + left. injection Hk as ->. f_equal. f_equal. lia.
    + right. split; [done|]. exists k. split; [lia|done].
Qed.

Lemma elem_of_grid_entries i0 rows i j v :
  (i, j, v) ∈ grid_entries i0 rows ↔
  ∃ k row, i = (i0 + k)%nat ∧ rows !! k = Some row ∧ row !! j = Some v.
Proof.
  revert i0. induction rows as [|r rows IH]; intros i0; simpl.
  { split; [by intros ?%elem_of_nil|]. by intros (k & row & _ & ? & _). }
  rewrite elem_of_app, elem_of_row_entries, IH. split.
  - intros [(-> & k & -> & Hk)|(k & row & -> & Hrow & Hv)].
    + exists 0%nat, r. split; [lia|done].
    + exists (S k), row. split; [lia|done].
  - intros ([|k] & row & -> & Hrow & Hv).
    + left. injection Hrow as ->. split; [lia|]. by exists j.
    + right. exists k, row. split; [lia|done].
Qed.

Lemma elem_of_entries b i j v :
  (i, j, v) ∈ entries b ↔ ∃ row, b !! i = Some row ∧ row !! j = Some v.
Proof.
  unfold entries. rewrite elem_of_grid_entries. split.
  - intros (k & row & -> & ? & ?). by exists row.
  - intros (row & ? & ?). by exists i, row.
Qed.

Lemma elem_of_collected g es k v :
  v ∈ collected g es k ↔ v ≠ "." ∧ ∃ i j, (i, j, v) ∈ es ∧ key g i j = k.
Proof.
  unfold collected. rewrite elem_of_list_to_set, list_elem_of_fmap. split.
  - intros ([[i j] v'] & -> & [[Hk Hv] He]%list_elem_of_filter).
    simpl in *. split; [done|]. by exists i, j.
  - intros (Hv & i & j & He & Hk). exists (i, j, v). split; [done|].
    apply list_elem_of_filter. by split.
Qed.

(** A value is in [values g b k] when a cell of row (column, box) [k]
    holds it and it is not ["."]. *)
Lemma elem_of_values g b k v :
  v ∈ values g b k ↔
  v ≠ "." ∧ ∃ i j row, b !! i = Some row ∧ row !! j = Some v ∧ key g i j = k.
Proof.
  unfold values. rewrite elem_of_collected. split.
  - intros (Hv & i & j & (row & ? & ?)%elem_of_entries & Hk).
    split; [done|]. by exists i, j, row.
  - intros (Hv & i & j & row & ? & ? & Hk). split; [done|].
    exists i, j. split; [|done]. apply elem_of_entries. by exists row.
Qed.

End SudokuFacts.

(** ** Peg solitaire: what the methods guarantee *)

Module PegProperties.
Import Peg Board Jump Positions BoardFacts JumpFacts ScanFacts PegCount
  BritishFacts EncodeFacts.

(** [get_valid_moves] returns legal jumps only, in [british/dfs.py] and in
    [european/search-sep.py]: each move it returns starts on a peg, jumps
    over the neighbouring peg whose number it records, and lands in a
    hole, all three cells being on the board. *)
Theorem get_valid_moves_sound (b : board) (valids : list move) :
  (British.get_valid_moves b = Ok valids → Forall (legal b) valids) ∧
  (European.get_valid_moves b = Ok valids → Forall (legal b) valids).
Proof. split; [apply british_moves_legal|apply european_moves_legal]. Qed.

Lemma get_valid_moves_sound_witness :
  Forall (legal two_ways) [Move 3 3 "w" 10] ∧
  Forall (legal two_ways) [Move 3 3 "w" 10; Move 3 3 "a" 16].
Proof.
  split.
  - apply (proj1 (get_valid_moves_sound two_ways _)). reflexivity.
  - apply (proj2 (get_valid_moves_sound two_ways _)). reflexivity.
Defined.

(** [make_move] followed by [undo_move], for a move that
    [get_valid_moves] returned on the current board: neither raises,
    [self.moves] is what it was, and the board is what it was except that
    the landing hole now holds [-1]; so the board is the same when its
    holes all held [-1], and its encoding is the same in any case. *)
Theorem make_move_undo_move_restores (s : pstate) (valids : list move) (m : move) :
  British.get_valid_moves (st_board s) = Ok valids →
  m ∈ valids →
  ∃ s1 s2,
    make_move m s = (Ok tt, s1) ∧
    undo_move s1 = (Ok tt, s2) ∧
    st_moves s2 = st_moves s ∧
    related refill (st_board s) (st_board s2) ∧
    BritishMemo.encode_board (st_board s2) = BritishMemo.encode_board (st_board s) ∧
    (holes_empty (st_board s) → s2 = s).
Proof.
  intros Hv Hm. apply british_moves_legal in Hv.
  rewrite Forall_forall in Hv. destruct (Hv m Hm) as (dr & dc & o & h & Hj).
  destruct s as [b ms]. cbn [st_board st_moves] in *.
  pose proof (jumpable_coords _ _ _ _ _ _ Hj) as Hc.
  pose proof (offset_unit _ _ _ (j_dir _ _ _ _ _ _ Hj)) as Hu.
  assert (at_ (after_jump b m dr dc o)
            (m_row m + 2 * dr) (m_col m + 2 * dc) = Some o
          ∧ is_Some (at_ (after_jump b m dr dc o) (m_row m) (m_col m))
          ∧ is_Some (at_ (after_jump b m dr dc o)
                       (m_row m + dr) (m_col m + dc)))
    as (Ho & [x Hx] & [y Hy]).
  { destruct Hj as [Hd Ho' ? Hj' ? Hh' ?].
    unfold after_jump. rewrite !at_put by lia. rewrite Ho', Hj', Hh'.
    repeat case_decide; simpl; try lia; eauto. }
  assert (related refill b (after_undo (after_jump b m dr dc o) m dr dc o))
    as Hr.
  { eapply undo_restores; [done|]. apply related_refl, refill_refl. }
  eexists _, _. split; [by eapply make_move_jumpable|].
  split; [by eapply undo_move_landed; [eapply j_dir|..]|].
  split; [done|]. split; [done|]. split; [by apply encode_board_refill|].
  intros Hh. cbn [st_board]. f_equal. by apply refill_holes_empty.
Qed.

Lemma make_move_undo_move_restores_witness :
  ∃ s1 s2,
    make_move (Move 1 3 "s" 10) (PState British.main_board []) = (Ok tt, s1) ∧
    undo_move s1 = (Ok tt, s2) ∧
    st_moves s2 = [] ∧
    related refill British.main_board (st_board s2) ∧
    BritishMemo.encode_board (st_board s2) =
      BritishMemo.encode_board British.main_board ∧
    (holes_empty British.main_board → s2 = PState British.main_board []).
Proof.
  apply (make_move_undo_move_restores (PState British.main_board [])
           [Move 1 3 "s" 10; Move 3 1 "d" 16; Move 3 5 "a" 17; Move 5 3 "w" 23]).
  - reflexivity.
  - apply elem_of_cons. by left.
Defined.

(** A legal jump removes exactly one peg: after [make_move] the board has
    one positive cell less. *)
Theorem make_move_removes_one_peg (b : board) (ms : list move) (m : move) :
  legal b m →
  ∃ s1, make_move m (PState b ms) = (Ok tt, s1) ∧
        S (pegs (st_board s1)) = pegs b.
Proof.
  intros (dr & dc & o & h & Hj). eexists. split.
  - by eapply make_move_jumpable.
  - cbn [st_board]. by eapply pegs_after_jump.
Qed.

Lemma make_move_removes_one_peg_witness :
  ∃ s1, make_move (Move 3 3 "a" 16) (PState two_ways []) = (Ok tt, s1) ∧
        S (pegs (st_board s1)) = pegs two_ways.
Proof.
  apply make_move_removes_one_peg.
  exists 0, (-1), 5, (-1). by split.
Defined.

(** [solve] of [british/dfs.py]: a call that returns [False] leaves
    [self.moves] as it found it and the board as it found it, except that
    holes it jumped into hold [-1]; on a board whose holes all hold [-1]
    the state is exactly the one before the call. *)
Theorem solve_failure_restores (fuel : nat) (s s' : pstate) :
  British.solve fuel s = Some (Ok false, s') →
  st_moves s' = st_moves s ∧
  related refill (st_board s) (st_board s') ∧
  BritishMemo.encode_board (st_board s') = BritishMemo.encode_board (st_board s) ∧
  (holes_empty (st_board s) → s' = s).
Proof.
  intros [Hr Hm]%solve_false. split; [done|]. split; [done|].
  split; [by apply encode_board_refill|].
  intros Hh. destruct s, s'. simpl in *. f_equal; [|done].
  by apply refill_holes_empty.
Qed.

Lemma solve_failure_restores_witness :
  ∃ s', British.solve 3 (PState two_pegs []) = Some (Ok false, s') ∧
    st_moves s' = [] ∧
    related refill two_pegs (st_board s') ∧
    BritishMemo.encode_board (st_board s') = BritishMemo.encode_board two_pegs ∧
    (holes_empty two_pegs → s' = PState two_pegs []).
Proof.
  eexists. split; [reflexivity|].
  apply (solve_failure_restores 3 (PState two_pegs [])). reflexivity.
Defined.

(** [solve] returns: a recursion depth of one more than the number of pegs
    on the board is enough, whatever the board (also a ragged one, on
    which the result may be an [IndexError]). *)
Theorem solve_returns_within_pegs (s : pstate) :
  is_Some (British.solve (S (pegs (st_board s))) s).
Proof. apply solve_returns. lia. Qed.

End PegProperties.
